(** * Egg & Geese v2: the execution gateway, the heartbeat daemon, the
    activity feed and the campaign pipeline

    A shallow embedding of the TypeScript sources:
    - [gateway/src/agents/{twitter,reddit,instagram}.ts]: the platform
      adapters ([Agents]);
    - the gateway's [index.ts] and [bridge.ts]: the agent registry and the
      two HTTP handlers ([Bridge]);
    - [heartbeat.ts]: the heartbeat daemon ([Heartbeat]);
    - the dashboard and activity pages: the merge of a live batch into the
      list of recent events ([Feed]);
    - the campaign page's [PIPELINE_STAGES] and the pipeline status it
      renders ([Pipeline]).

    Conventions.  A JavaScript string is a [string]; the character classes
    and literals of the regular expressions are ASCII, so one element of a
    [string] stands for one code unit.  An [async] function that runs to its
    [return] or [throw] without waiting on anything is a function from the
    world to an [outcome] and a world.  What the runtime supplies
    ([Date.now], [Math.random], [uuidv4], [fetch], [process.env]) is read
    from the world. *)

From Stdlib Require Import Ascii.
From stdpp Require Import base gmap sets list strings pretty.

Open Scope string_scope.
Open Scope list_scope.

(** ** The JavaScript runtime, as far as the sources use it *)

Module JS.

(** A call either returns or throws an [Error] with a message. *)
Inductive outcome (A : Type) : Type :=
  | Returned (a : A)
  | Threw (message : string).
Arguments Returned {A} a.
Arguments Threw {A} message.

(** Values sent as JSON. *)
#[local] Set Warnings "-register-all".
Inductive json : Type :=
  | JStr (s : string)
  | JNum (z : Z)
  | JArr (l : list json)
  | JObj (fields : list (string * json)).

(** An object literal whose fields are all strings ([Record<string, any>]
    in the adapters), fields in the order of the literal. *)
Definition obj : Type := list (string * string).

Fixpoint assoc {V : Type} (k : string) (l : list (string * V)) : option V :=
  match l with
  | [] => None
  | (k', v) :: l' => if String.eqb k k' then Some v else assoc k l'
  end.

Fixpoint assoc_nat {V : Type} (k : nat) (l : list (nat * V)) : option V :=
  match l with
  | [] => None
  | (k', v) :: l' => if Nat.eqb k k' then Some v else assoc_nat k l'
  end.

Definition obj_to_json (o : obj) : json :=
  JObj (map (fun kv => (fst kv, JStr (snd kv))) o).

(** [a || b] where [a] is a string or [undefined]: the empty string and
    [undefined] are falsy. *)
Definition or_else (a : option string) (b : string) : string :=
  match a with
  | Some (String c s) => String c s
  | _ => b
  end.

(** [s.substring(0, n)]. *)
Definition substring0 (n : nat) (s : string) : string := String.substring 0 n s.

Definition code (c : ascii) : N := N_of_ascii c.

(** [\d] *)
Definition is_digit (c : ascii) : bool :=
  ((48 <=? code c) && (code c <=? 57))%N.
Definition is_lower (c : ascii) : bool :=
  ((97 <=? code c) && (code c <=? 122))%N.
Definition is_upper (c : ascii) : bool :=
  ((65 <=? code c) && (code c <=? 90))%N.
(** [[a-z0-9]] under the [i] flag *)
Definition is_alnum (c : ascii) : bool :=
  is_lower c || is_upper c || is_digit c.
(** [[A-Za-z0-9_-]] *)
Definition is_shortcode_char (c : ascii) : bool :=
  is_alnum c || (code c =? 95)%N || (code c =? 45)%N.

(** Canonical form of a code unit for a comparison under the [i] flag:
    the ASCII lower-case letters are folded to upper case. *)
Definition fold_case (c : ascii) : ascii :=
  if is_lower c then ascii_of_N (code c - 32) else c.
Definition eq_char (ignore_case : bool) (a b : ascii) : bool :=
  if ignore_case then (code (fold_case a) =? code (fold_case b))%N
  else (code a =? code b)%N.

Fixpoint fold_string (s : string) : string :=
  match s with
  | "" => ""
  | String c s' => String (fold_case c) (fold_string s')
  end.

(** The literal [lit] at the start of [s]: what follows it. *)
Fixpoint strip_literal (ignore_case : bool) (lit s : string) : option string :=
  match lit with
  | "" => Some s
  | String a lit' =>
      match s with
      | "" => None
      | String b s' =>
          if eq_char ignore_case a b then strip_literal ignore_case lit' s'
          else None
      end
  end.

(** The longest run of [cls] at the start of [s] (a greedy [[cls]+] or
    [[cls]*]). *)
Fixpoint take_class (cls : ascii -> bool) (s : string) : string :=
  match s with
  | "" => ""
  | String c s' => if cls c then String c (take_class cls s') else ""
  end.

(** [lit([cls]+)] anchored at the start of [s]: the capture. *)
Definition match_here (ignore_case : bool) (lit : string)
    (cls : ascii -> bool) (s : string) : option string :=
  match strip_literal ignore_case lit s with
  | Some rest =>
      match take_class cls rest with
      | "" => None
      | cap => Some cap
      end
  | None => None
  end.

(** [s.match(re)] for a pattern without the [g] flag tries every start
    position from the left; [m] is the pattern anchored at a position. *)
Fixpoint search (m : string -> option string) (s : string) : option string :=
  match m s with
  | Some cap => Some cap
  | None =>
      match s with
      | "" => None
      | String _ s' => search m s'
      end
  end.

(** *** The world the gateway runs in *)

Inductive level : Type := Info | Warn | Error.

Record world : Type := mkWorld {
  (** [Date.now()], in milliseconds; a time value stays below 8.64e15,
      where a number in a template literal prints as plain decimal digits *)
  clock : N;
  (** the value of [Math.floor(Math.random() * k)] at the i-th draw *)
  random_floor : nat -> Z -> Z;
  drawn : nat;
  (** what the i-th call of [uuidv4()] returns *)
  uuids : nat -> string;
  uuid_used : nat;
  (** ghost trace: the adapter methods the router has invoked, as
      (registry key, method) *)
  calls : list (string * string);
  (** the lines given to the logger *)
  logs : list (level * string)
}.

Definition M (A : Type) : Type := world -> outcome A * world.

#[export] Instance M_ret : MRet M := fun A a w => (Returned a, w).
#[export] Instance M_bind : MBind M := fun A B f m w =>
  match m w with
  | (Returned a, w') => f a w'
  | (Threw e, w') => (Threw e, w')
  end.

Definition throw {A : Type} (message : string) : M A :=
  fun w => (Threw message, w).

(** [try { body } catch (err) { handler(err.message) }] *)
Definition try_catch {A : Type} (body : M A) (handler : string -> M A) : M A :=
  fun w =>
    match body w with
    | (Returned a, w') => (Returned a, w')
    | (Threw e, w') => handler e w'
    end.

Definition log (lv : level) (line : string) : M unit :=
  fun w => (Returned tt,
            mkWorld (clock w) (random_floor w) (drawn w) (uuids w)
                    (uuid_used w) (calls w) (logs w ++ [(lv, line)])).

Definition date_now : M N := fun w => (Returned (clock w), w).

(** [Math.floor(Math.random() * k)] *)
Definition floor_random (k : Z) : M Z :=
  fun w => (Returned (random_floor w (drawn w) k),
            mkWorld (clock w) (random_floor w) (S (drawn w)) (uuids w)
                    (uuid_used w) (calls w) (logs w)).

Definition uuidv4 : M string :=
  fun w => (Returned (uuids w (uuid_used w)),
            mkWorld (clock w) (random_floor w) (drawn w) (uuids w)
                    (S (uuid_used w)) (calls w) (logs w)).

(** ghost: the router is about to call [method] of the adapter under [key] *)
Definition record_call (key method : string) : M unit :=
  fun w => (Returned tt,
            mkWorld (clock w) (random_floor w) (drawn w) (uuids w)
                    (uuid_used w) (calls w ++ [(key, method)]) (logs w)).

(** Time passing between two requests. *)
Definition advance (dt : N) (w : world) : world :=
  mkWorld (clock w + dt) (random_floor w) (drawn w) (uuids w)
          (uuid_used w) (calls w) (logs w).

End JS.

Import JS.

(** ** The platform adapters *)

Module Agents.

Record ExecuteParams : Type := mkParams {
  action : string;
  postUrl : string;
  content : string;
  parentCommentId : option string;
  metadata : obj
}.

Record metrics : Type := mkMetrics {
  post_id : string;
  impressions : Z;
  likes : Z;
  replies : Z;
  reposts : Z;
  clicks : Z;
  follower_delta : Z;
  status : string
}.

(** The shape the registry asks of an adapter. *)
Record agent : Type := mkAgent {
  execute : ExecuteParams -> M obj;
  collectMetrics : list string -> M (list metrics)
}.

(** [/status\/(\d+)/] *)
Definition extractTweetId (url : string) : string :=
  match search (match_here false "status/" is_digit) url with
  | Some cap => cap
  | None => ""
  end.

(** [/comments\/([a-z0-9]+)/i] *)
Definition extractRedditId (url : string) : string :=
  match search (match_here true "comments/" is_alnum) url with
  | Some cap => cap
  | None => ""
  end.

(** [/\/(p|reel)\/([A-Za-z0-9_-]+)/]: the alternatives are tried in
    order at each position; the second group is the capture returned. *)
Definition match_ig (s : string) : option string :=
  match match_here false "/p/" is_shortcode_char s with
  | Some cap => Some cap
  | None => match_here false "/reel/" is_shortcode_char s
  end.

Definition extractIgShortcode (url : string) : string :=
  match search match_ig url with
  | Some cap => cap
  | None => ""
  end.

(** The URLs each pattern matches somewhere: the literal, then at least one
    character of the class. *)
Definition has_tweet_id (url : string) : Prop :=
  exists pre c rest,
    url = pre +:+ "status/" +:+ String c rest /\ is_digit c = true.

Definition has_reddit_id (url : string) : Prop :=
  exists pre lit c rest,
    url = pre +:+ lit +:+ String c rest /\
    fold_string lit = fold_string "comments/" /\ is_alnum c = true.

Definition has_ig_shortcode (url : string) : Prop :=
  exists pre c rest,
    (url = pre +:+ "/p/" +:+ String c rest \/
     url = pre +:+ "/reel/" +:+ String c rest) /\
    is_shortcode_char c = true.

(** Every character of [s] is in the class. *)
Fixpoint all_chars (cls : ascii -> bool) (s : string) : bool :=
  match s with
  | "" => true
  | String c s' => cls c && all_chars cls s'
  end.

(** [s] starts with a character of the class. *)
Definition starts_with (cls : ascii -> bool) (s : string) : bool :=
  match s with
  | "" => false
  | String c _ => cls c
  end.

(** [lit'] is the literal [lit] as the pattern accepts it: up to the case
    of ASCII letters under the [i] flag, exactly otherwise. *)
Definition literal_ok (ignore_case : bool) (lit lit' : string) : Prop :=
  if ignore_case then fold_string lit' = fold_string lit else lit' = lit.

(** [s] has, somewhere, the literal followed by a character of the class. *)
Definition has_match (ignore_case : bool) (lit : string)
    (cls : ascii -> bool) (s : string) : Prop :=
  exists pre lit' c rest,
    s = pre +:+ lit' +:+ String c rest /\
    literal_ok ignore_case lit lit' /\ cls c = true.

(** [pre] has no [/p] and no [/r]: no slash that a [p] or an [r] follows. *)
Definition no_slash_p_or_r (pre : string) : Prop :=
  forall a b, pre <> a +:+ "/p" +:+ b /\ pre <> a +:+ "/r" +:+ b.

(** [lo <= z < hi] *)
Definition within (lo hi z : Z) : Prop := (lo <= z < hi)%Z.

(** The double quote of the log lines. *)
Definition dquote : string := String (ascii_of_nat 34) "".

(** The first fifty code units of the content, as the log lines show it. *)
Definition quoted50 (content : string) : string :=
  dquote +:+ substring0 50 content +:+ "..." +:+ dquote.

(** *** twitter.ts *)

Definition TwitterAgent_execute (params : ExecuteParams) : M obj :=
  let tweetId := extractTweetId (postUrl params) in
  log Info ("Twitter: " +:+ action params +:+ " on tweet " +:+ tweetId) ;;
  if String.eqb (action params) "comment" then
    log Info ("Twitter: would reply to " +:+ tweetId +:+ ": "
              +:+ quoted50 (content params)) ;;
    now ← date_now;
    mret [("id", "tw_reply_" +:+ pretty now);
          ("tweet_id", tweetId);
          ("action", "reply");
          ("content", content params);
          ("status", "simulated")]
  else if String.eqb (action params) "reply" then
    let replyToId := or_else (parentCommentId params) tweetId in
    log Info ("Twitter: would reply to comment " +:+ replyToId +:+ ": "
              +:+ quoted50 (content params)) ;;
    now ← date_now;
    mret [("id", "tw_thread_" +:+ pretty now);
          ("reply_to", replyToId);
          ("action", "reply");
          ("content", content params);
          ("status", "simulated")]
  else if String.eqb (action params) "repost" then
    log Info ("Twitter: would quote retweet " +:+ tweetId +:+ ": "
              +:+ quoted50 (content params)) ;;
    now ← date_now;
    mret [("id", "tw_qt_" +:+ pretty now);
          ("tweet_id", tweetId);
          ("action", "quote_retweet");
          ("content", content params);
          ("status", "simulated")]
  else throw ("Unsupported action: " +:+ action params).

Definition TwitterAgent_collectMetrics (postIds : list string)
    : M (list metrics) :=
  log Info ("Twitter: collecting metrics for " +:+ pretty (length postIds)
            +:+ " posts") ;;
  mapM (fun id =>
          i ← floor_random 10000;
          l ← floor_random 200;
          r ← floor_random 50;
          p ← floor_random 30;
          c ← floor_random 100;
          f ← floor_random 10;
          mret (mkMetrics id i l r p c (f - 2) "simulated"))
       postIds.

Definition TwitterAgent : agent :=
  mkAgent TwitterAgent_execute TwitterAgent_collectMetrics.

(** *** reddit.ts *)

Definition RedditAgent_execute (params : ExecuteParams) : M obj :=
  let postId := extractRedditId (postUrl params) in
  log Info ("Reddit: " +:+ action params +:+ " on post " +:+ postId) ;;
  if String.eqb (action params) "comment" then
    log Info ("Reddit: would comment on " +:+ postId +:+ ": "
              +:+ quoted50 (content params)) ;;
    now ← date_now;
    mret [("id", "rd_comment_" +:+ pretty now);
          ("post_id", postId);
          ("action", "comment");
          ("content", content params);
          ("status", "simulated")]
  else if String.eqb (action params) "reply" then
    let replyTo := or_else (parentCommentId params) postId in
    log Info ("Reddit: would reply to " +:+ replyTo +:+ ": "
              +:+ quoted50 (content params)) ;;
    now ← date_now;
    mret [("id", "rd_reply_" +:+ pretty now);
          ("reply_to", replyTo);
          ("action", "reply");
          ("content", content params);
          ("status", "simulated")]
  else if String.eqb (action params) "repost" then
    log Info ("Reddit: would crosspost " +:+ postId +:+ ": "
              +:+ quoted50 (content params)) ;;
    now ← date_now;
    mret [("id", "rd_xpost_" +:+ pretty now);
          ("post_id", postId);
          ("action", "crosspost");
          ("content", content params);
          ("status", "simulated")]
  else throw ("Unsupported action: " +:+ action params).

Definition RedditAgent_collectMetrics (postIds : list string)
    : M (list metrics) :=
  log Info ("Reddit: collecting metrics for " +:+ pretty (length postIds)
            +:+ " posts") ;;
  mapM (fun id =>
          i ← floor_random 5000;
          l ← floor_random 300;
          r ← floor_random 40;
          p ← floor_random 10;
          mret (mkMetrics id i l r p 0 0 "simulated"))
       postIds.

Definition RedditAgent : agent :=
  mkAgent RedditAgent_execute RedditAgent_collectMetrics.

(** *** instagram.ts *)

Definition InstagramAgent_execute (params : ExecuteParams) : M obj :=
  let shortcode := extractIgShortcode (postUrl params) in
  log Info ("Instagram: " +:+ action params +:+ " on post " +:+ shortcode) ;;
  if String.eqb (action params) "comment" then
    log Info ("Instagram: would comment on " +:+ shortcode +:+ ": "
              +:+ quoted50 (content params)) ;;
    now ← date_now;
    mret [("id", "ig_comment_" +:+ pretty now);
          ("shortcode", shortcode);
          ("action", "comment");
          ("content", content params);
          ("status", "simulated")]
  else if String.eqb (action params) "reply" then
    let replyTo := or_else (parentCommentId params) shortcode in
    log Info ("Instagram: would reply to " +:+ replyTo +:+ ": "
              +:+ quoted50 (content params)) ;;
    now ← date_now;
    mret [("id", "ig_reply_" +:+ pretty now);
          ("reply_to", replyTo);
          ("action", "reply");
          ("content", content params);
          ("status", "simulated")]
  else if String.eqb (action params) "repost" then
    log Info ("Instagram: would share " +:+ shortcode +:+ " to story") ;;
    now ← date_now;
    mret [("id", "ig_story_" +:+ pretty now);
          ("shortcode", shortcode);
          ("action", "story_share");
          ("content", content params);
          ("status", "simulated")]
  else throw ("Unsupported action: " +:+ action params).

Definition InstagramAgent_collectMetrics (postIds : list string)
    : M (list metrics) :=
  log Info ("Instagram: collecting metrics for " +:+ pretty (length postIds)
            +:+ " posts") ;;
  mapM (fun id =>
          i ← floor_random 15000;
          l ← floor_random 500;
          r ← floor_random 60;
          p ← floor_random 20;
          c ← floor_random 200;
          f ← floor_random 15;
          mret (mkMetrics id i l r p c (f - 3) "simulated"))
       postIds.

Definition InstagramAgent : agent :=
  mkAgent InstagramAgent_execute InstagramAgent_collectMetrics.

(** The prefix of the id each adapter gives to each action it supports,
    by registry key. *)
Definition id_prefixes : list (string * list (string * string)) :=
  [("twitter", [("comment", "tw_reply_"); ("reply", "tw_thread_");
                ("repost", "tw_qt_")]);
   ("reddit", [("comment", "rd_comment_"); ("reply", "rd_reply_");
               ("repost", "rd_xpost_")]);
   ("instagram", [("comment", "ig_comment_"); ("reply", "ig_reply_");
                  ("repost", "ig_story_")])].

Definition id_prefix (key action : string) : option string :=
  match assoc key id_prefixes with
  | Some row => assoc action row
  | None => None
  end.

(** A result object of a simulated action. *)
Definition simulated (r : obj) : Prop :=
  assoc "status" r = Some "simulated" /\
  exists c s, assoc "id" r = Some (String c s).

(** What [execute] of the adapter under [key] does, by the row of
    [id_prefixes]. *)
Definition execute_spec (key : string) (a : agent) : Prop :=
  forall params w,
    match id_prefix key (action params) with
    | Some prefix =>
        exists r w',
          execute a params w = (Returned r, w') /\
          simulated r /\
          assoc "id" r = Some (prefix +:+ pretty (clock w)) /\
          clock w' = clock w /\ calls w' = calls w /\
          uuid_used w' = uuid_used w
    | None =>
        exists w',
          execute a params w
          = (Threw ("Unsupported action: " +:+ action params), w') /\
          clock w' = clock w /\ calls w' = calls w
    end.

(** All the counters of a metrics record are zero. *)
Definition zeroed (m : metrics) : Prop :=
  impressions m = 0%Z /\ likes m = 0%Z /\ replies m = 0%Z /\
  reposts m = 0%Z /\ clicks m = 0%Z /\ follower_delta m = 0%Z.

(** Two metrics records with the same counters. *)
Definition same_counters (m m' : metrics) : Prop :=
  impressions m = impressions m' /\ likes m = likes m' /\
  replies m = replies m' /\ reposts m = reposts m' /\
  clicks m = clicks m' /\ follower_delta m = follower_delta m'.

(** [Math.floor(Math.random() * k)] lies in [0, k), as it does for a
    [Math.random()] in [0, 1) and the factors the adapters use. *)
Definition fair_random (w : world) : Prop :=
  forall i k, (0 < k)%Z -> within 0 k (random_floor w i k).

(** The ranges of the counters each adapter draws. *)
Definition twitter_ranges (m : metrics) : Prop :=
  within 0 10000 (impressions m) /\ within 0 200 (likes m) /\
  within 0 50 (replies m) /\ within 0 30 (reposts m) /\
  within 0 100 (clicks m) /\ within (-2) 8 (follower_delta m).

Definition reddit_ranges (m : metrics) : Prop :=
  within 0 5000 (impressions m) /\ within 0 300 (likes m) /\
  within 0 40 (replies m) /\ within 0 10 (reposts m) /\
  clicks m = 0%Z /\ follower_delta m = 0%Z.

Definition instagram_ranges (m : metrics) : Prop :=
  within 0 15000 (impressions m) /\ within 0 500 (likes m) /\
  within 0 60 (replies m) /\ within 0 20 (reposts m) /\
  within 0 200 (clicks m) /\ within (-3) 12 (follower_delta m).

(** The extractor of the adapter under a registry key. *)
Definition extractor (key : string) (url : string) : string :=
  if String.eqb key "twitter" then extractTweetId url
  else if String.eqb key "reddit" then extractRedditId url
  else extractIgShortcode url.

(** What the adapters put in a result, and what they leave alone. *)
Definition result_spec (key : string) (a : agent) : Prop :=
  forall params w prefix,
    id_prefix key (action params) = Some prefix ->
    exists r w',
      execute a params w = (Returned r, w') /\
      assoc "id" r = Some (prefix +:+ pretty (clock w)) /\
      assoc "content" r = Some (content params) /\
      assoc "status" r = Some "simulated" /\
      (action params = "reply" ->
       assoc "reply_to" r
       = Some (or_else (parentCommentId params)
                 (extractor key (postUrl params)))) /\
      (action params <> "reply" -> assoc "reply_to" r = None) /\
      uuid_used w' = uuid_used w /\ drawn w' = drawn w /\
      calls w' = calls w /\ clock w' = clock w.

(** A world in which [Math.random()] always gives one half. *)
Definition world_half (now : N) : world :=
  mkWorld now (fun _ k => (k / 2)%Z) 0 (fun _ => "") 0 [] [].

End Agents.

Import Agents.

(** ** The gateway: the agent registry and the bridge router *)

Module Bridge.

(** bridge.ts: a body of the shape [interface ExecuteRequest] declares:
    the four required fields are there and are strings, the two optional
    ones are absent or of their declared type.  The handler casts
    [req.body] to the interface without a check; bodies of another shape
    are not part of this model. *)
Record ExecuteRequest : Type := mkExecuteRequest {
  req_action : string;
  req_platform : string;
  req_post_url : string;
  req_content : string;
  req_parent_comment_id : option string;
  req_metadata : option obj
}.

(** bridge.ts: a body of the shape [interface MetricsRequest] declares,
    likewise. *)
Record MetricsRequest : Type := mkMetricsRequest {
  mreq_platform : string;
  mreq_post_ids : list string
}.

(** What [res.status(code).json(body)] sends; [res.json(body)] sends 200. *)
Record response : Type := mkResponse {
  http_status : Z;
  body : json
}.

(** index.ts: the registry, an object literal. *)
Definition platformAgents : list (string * agent) :=
  [("twitter", TwitterAgent);
   ("reddit", RedditAgent);
   ("instagram", InstagramAgent)].

(** The registry is a plain object, so [registry[key]] also finds what
    [Object.prototype] defines: the names below evaluate to a built-in
    function (or, for [__proto__], to the prototype itself), a truthy value
    with neither an [execute] nor a [collectMetrics] property. *)
Definition Object_prototype_properties : list string :=
  ["constructor"; "__defineGetter__"; "__defineSetter__"; "hasOwnProperty";
   "__lookupGetter__"; "__lookupSetter__"; "isPrototypeOf";
   "propertyIsEnumerable"; "toString"; "valueOf"; "__proto__";
   "toLocaleString"].

Inductive property : Type :=
  | Own (a : agent)
  | Inherited.

(** [registry[key]]; [None] is [undefined]. *)
Definition get_property (registry : list (string * agent)) (key : string)
    : option property :=
  match assoc key registry with
  | Some a => Some (Own a)
  | None =>
      if bool_decide (key ∈ Object_prototype_properties) then Some Inherited
      else None
  end.

(** [await agent.execute(params)] *)
Definition call_execute (key : string) (p : property) (params : ExecuteParams)
    : M obj :=
  match p with
  | Own a => record_call key "execute" ;; execute a params
  | Inherited => throw "agent.execute is not a function"
  end.

(** [await agent.collectMetrics(post_ids)] *)
Definition call_collectMetrics (key : string) (p : property)
    (post_ids : list string) : M (list metrics) :=
  match p with
  | Own a => record_call key "collectMetrics" ;; collectMetrics a post_ids
  | Inherited => throw "agent.collectMetrics is not a function"
  end.

Definition metrics_to_json (m : metrics) : json :=
  JObj [("post_id", JStr (post_id m));
        ("impressions", JNum (impressions m));
        ("likes", JNum (likes m));
        ("replies", JNum (replies m));
        ("reposts", JNum (reposts m));
        ("clicks", JNum (clicks m));
        ("follower_delta", JNum (follower_delta m));
        ("status", JStr (status m))].

Section Router.

Variable registry : list (string * agent).

(** [router.post("/api/execute", ...)] *)
Definition post_api_execute (req : ExecuteRequest) : M response :=
  let action := req_action req in
  let platform := req_platform req in
  log Info ("Execute: " +:+ action +:+ " on " +:+ platform +:+ " — "
            +:+ substring0 60 (req_post_url req) +:+ "...") ;;
  match get_property registry platform with
  | None =>
      mret (mkResponse 400
              (JObj [("error", JStr ("Unsupported platform: " +:+ platform))]))
  | Some agent =>
      try_catch
        (result ← call_execute platform agent
                    (mkParams action (req_post_url req) (req_content req)
                       (req_parent_comment_id req)
                       (default [] (req_metadata req)));
         platformPostId ←
           match assoc "id" result with
           | Some (String c s) => mret (String c s)
           | _ => uuidv4
           end;
         log Info ("Execute success: " +:+ action +:+ " on " +:+ platform
                   +:+ " — id=" +:+ platformPostId) ;;
         mret (mkResponse 200
                 (JObj [("status", JStr "success");
                        ("platform_post_id", JStr platformPostId);
                        ("platform", JStr platform);
                        ("action", JStr action);
                        ("result", obj_to_json result)])))
        (fun message =>
           log Error ("Execute failed: " +:+ action +:+ " on " +:+ platform
                      +:+ " — " +:+ message) ;;
           mret (mkResponse 500
                   (JObj [("status", JStr "error");
                          ("error", JStr message);
                          ("platform", JStr platform);
                          ("action", JStr action)])))
  end.

(** [router.post("/api/metrics", ...)] *)
Definition post_api_metrics (req : MetricsRequest) : M response :=
  let platform := mreq_platform req in
  log Info ("Metrics: collecting for " +:+ pretty (length (mreq_post_ids req))
            +:+ " posts on " +:+ platform) ;;
  match get_property registry platform with
  | None =>
      mret (mkResponse 400
              (JObj [("error", JStr ("Unsupported platform: " +:+ platform))]))
  | Some agent =>
      try_catch
        (ms ← call_collectMetrics platform agent (mreq_post_ids req);
         mret (mkResponse 200
                 (JObj [("metrics", JArr (map metrics_to_json ms));
                        ("platform", JStr platform)])))
        (fun message =>
           log Error ("Metrics failed for " +:+ platform +:+ ": "
                      +:+ message) ;;
           mret (mkResponse 500
                   (JObj [("error", JStr message);
                          ("platform", JStr platform)])))
  end.

End Router.

(** The two routes of the router. *)
Record Router : Type := mkRouter {
  api_execute : ExecuteRequest -> M response;
  api_metrics : MetricsRequest -> M response
}.

(** [createBridgeRouter()], over the registry it imports. *)
Definition createBridgeRouter (registry : list (string * agent)) : Router :=
  mkRouter (post_api_execute registry) (post_api_metrics registry).

(** The parameters the router hands to [agent.execute]. *)
Definition execute_params (req : ExecuteRequest) : ExecuteParams :=
  mkParams (req_action req) (req_post_url req) (req_content req)
    (req_parent_comment_id req) (default [] (req_metadata req)).

(** The world in which the router calls [agent.execute]: the first line is
    logged and the call is on the trace. *)
Definition at_adapter_call (req : ExecuteRequest) (w : world) : world :=
  mkWorld (clock w) (random_floor w) (drawn w) (uuids w) (uuid_used w)
    (calls w ++ [(req_platform req, "execute")])
    (logs w ++ [(Info, "Execute: " +:+ req_action req +:+ " on "
                       +:+ req_platform req +:+ " — "
                       +:+ substring0 60 (req_post_url req) +:+ "...")]).

(** The body of the error response of [/api/execute]. *)
Definition execute_error (message : string) (req : ExecuteRequest) : response :=
  mkResponse 500
    (JObj [("status", JStr "error");
           ("error", JStr message);
           ("platform", JStr (req_platform req));
           ("action", JStr (req_action req))]).

(** The response to an unsupported platform. *)
Definition unsupported (platform : string) : response :=
  mkResponse 400
    (JObj [("error", JStr ("Unsupported platform: " +:+ platform))]).

(** A request to [/api/execute] naming a property of [Object.prototype]. *)
Definition constructor_request : ExecuteRequest :=
  mkExecuteRequest "comment" "constructor"
    "https://x.com/user/status/1893" "hello" None None.

(** A request for an action no adapter has. *)
Definition like_request : ExecuteRequest :=
  mkExecuteRequest "like" "reddit"
    "https://www.reddit.com/r/rocq/comments/1abc2d/title/" "hello" None None.

(** A request to comment on a tweet. *)
Definition comment_request : ExecuteRequest :=
  mkExecuteRequest "comment" "twitter"
    "https://x.com/user/status/1893" "hello" None None.

(** A request for the metrics of a batch of Reddit posts. *)
Definition reddit_batch : MetricsRequest :=
  mkMetricsRequest "reddit" ["1abc2d"; ""; "not an id"].

(** The fields of a sent body. *)
Definition body_field (k : string) (r : response) : option json :=
  match body r with
  | JObj fields => assoc k fields
  | _ => None
  end.

(** The post id a success response carries. *)
Definition platform_post_id (r : response) : option string :=
  if (http_status r =? 200)%Z then
    match body_field "status" r, body_field "platform_post_id" r with
    | Some (JStr "success"), Some (JStr id) => Some id
    | _, _ => None
    end
  else None.

End Bridge.

Import Bridge.

(** ** heartbeat.ts: the heartbeat daemon *)

Module Heartbeat.

(** [intervalMinutes]: what [parseInt] gives, an integer or [NaN].  In a
    template literal an integer below 1e21 in magnitude prints as plain
    decimal digits. *)
Inductive number : Type :=
  | Int (z : Z)
  | NaN.

Definition number_to_string (n : number) : string :=
  match n with
  | Int z => pretty z
  | NaN => "NaN"
  end.

Record request : Type := mkRequest {
  method : string;
  url : string
}.

(** What [await fetch(url)] gives: a response with a status, or a throw. *)
Inductive fetch_result : Type :=
  | Response (status : Z)
  | Unreachable (message : string).

(** [response.ok] *)
Definition ok (status : Z) : bool := ((200 <=? status) && (status <=? 299))%Z.

(** The module variable [heartbeatTask] and what the daemon acts on: the
    timers node-cron keeps running (each with the interval its callback
    captured), the logger and the network. *)
Record state : Type := mkState {
  heartbeatTask : option nat;
  timers : list (nat * number);
  next_task : nat;
  lines : list (level * string);
  requests : list request
}.

Definition initial : state := mkState None [] 0 [] [].

Definition say (lv : level) (line : string) (s : state) : state :=
  mkState (heartbeatTask s) (timers s) (next_task s)
          (lines s ++ [(lv, line)]) (requests s).

Definition send (r : request) (s : state) : state :=
  mkState (heartbeatTask s) (timers s) (next_task s) (lines s)
          (requests s ++ [r]).

Section Daemon.

(** [process.env.ORCHESTRATOR_URL] *)
Variable ORCHESTRATOR_URL : option string.

(** node-cron's check of an expression: [None] when it accepts it, the
    message of the error [cron.schedule] throws otherwise. *)
Variable cron_validate : string -> option string.

Definition notifyOrchestrator (answer : fetch_result) (s : state) : state :=
  let orchestratorUrl := or_else ORCHESTRATOR_URL "http://localhost:8000" in
  let s := send (mkRequest "GET" (orchestratorUrl +:+ "/api/health")) s in
  match answer with
  | Response status =>
      if ok status then say Info "Heartbeat: orchestrator is healthy" s
      else say Warn ("Heartbeat: orchestrator returned " +:+ pretty status) s
  | Unreachable message =>
      say Error ("Heartbeat: orchestrator unreachable — " +:+ message) s
  end.

(** The callback given to [cron.schedule]: one heartbeat tick. *)
Definition tick (intervalMinutes : number) (answer : fetch_result)
    (s : state) : state :=
  notifyOrchestrator answer
    (say Info ("Heartbeat tick (every " +:+ number_to_string intervalMinutes
               +:+ "min)") s).

(** [cron.schedule(expr, callback)]: a new running task, or a throw. *)
Definition cron_schedule (expr : string) (captured : number) (s : state)
    : outcome nat * state :=
  match cron_validate expr with
  | Some message => (Threw message, s)
  | None =>
      (Returned (next_task s),
       mkState (heartbeatTask s) (timers s ++ [(next_task s, captured)])
               (S (next_task s)) (lines s) (requests s))
  end.

(** [task.stop()] *)
Definition task_stop (t : nat) (s : state) : state :=
  mkState (heartbeatTask s)
          (filter (fun tc => fst tc ≠ t) (timers s))
          (next_task s) (lines s) (requests s).

Definition set_heartbeatTask (h : option nat) (s : state) : state :=
  mkState h (timers s) (next_task s) (lines s) (requests s).

Definition startHeartbeat (arg : option number) (s : state)
    : outcome unit * state :=
  let intervalMinutes := default (Int 30) arg in
  match heartbeatTask s with
  | Some _ => (Returned tt, say Warn "Heartbeat already running" s)
  | None =>
      let cronExpr := "*/" +:+ number_to_string intervalMinutes +:+ " * * * *" in
      match cron_schedule cronExpr intervalMinutes s with
      | (Threw message, s') => (Threw message, s')
      | (Returned t, s') =>
          (Returned tt,
           say Info ("Heartbeat daemon started — ticking every "
                     +:+ number_to_string intervalMinutes +:+ " minutes")
               (set_heartbeatTask (Some t) s'))
      end
  end.

Definition stopHeartbeat (s : state) : state :=
  match heartbeatTask s with
  | Some t =>
      say Info "Heartbeat daemon stopped"
          (set_heartbeatTask None (task_stop t s))
  | None => s
  end.

(** What the process does to the daemon: the two exported functions, and
    a running timer firing. *)
Inductive op : Type :=
  | Start (arg : option number)
  | Stop
  | Fire (t : nat) (answer : fetch_result).

Definition run_op (o : op) (s : state) : state :=
  match o with
  | Start arg => snd (startHeartbeat arg s)
  | Stop => stopHeartbeat s
  | Fire t answer =>
      match assoc_nat t (timers s) with
      | Some n => tick n answer s
      | None => s
      end
  end.

Definition run (ops : list op) (s : state) : state :=
  fold_left (fun s o => run_op o s) ops s.

End Daemon.

(** The handle and node-cron agree: the timer of the handle is the only
    one running, and none runs without a handle. *)
Definition consistent (s : state) : Prop :=
  match heartbeatTask s with
  | Some t => exists n, timers s = [(t, n)]
  | None => timers s = []
  end.

(** What can be seen of the daemon apart from task numbers and log lines:
    whether a task is scheduled, and the intervals of the running timers. *)
Definition observe (s : state) : bool * list number :=
  (bool_decide (is_Some (heartbeatTask s)), (timers s).*2).

(** The expression [startHeartbeat] schedules for an argument. *)
Definition cron_expression (arg : option number) : string :=
  "*/" +:+ number_to_string (default (Int 30) arg) +:+ " * * * *".

(** The request of a health check. *)
Definition health_check (ORCHESTRATOR_URL : option string) : request :=
  mkRequest "GET"
    (or_else ORCHESTRATOR_URL "http://localhost:8000" +:+ "/api/health").

(** The tick callback is asynchronous: it runs up to [await fetch(...)] in
    one turn, and the rest of [notifyOrchestrator] runs in a later turn,
    when the answer is there; other calls can run in between.
    [tick_begin] is the first turn: the tick line, then the request. *)
Definition tick_begin (ORCHESTRATOR_URL : option string)
    (intervalMinutes : number) (s : state) : state :=
  send (health_check ORCHESTRATOR_URL)
    (say Info ("Heartbeat tick (every " +:+ number_to_string intervalMinutes
               +:+ "min)") s).

(** The line [notifyOrchestrator] logs for an answer. *)
Definition outcome_line (answer : fetch_result) : level * string :=
  match answer with
  | Response status =>
      if ok status then (Info, "Heartbeat: orchestrator is healthy")
      else (Warn, "Heartbeat: orchestrator returned " +:+ pretty status)
  | Unreachable message =>
      (Error, "Heartbeat: orchestrator unreachable — " +:+ message)
  end.

(** [tick_end] is the later turn: the line for the answer. *)
Definition tick_end (answer : fetch_result) (s : state) : state :=
  say (fst (outcome_line answer)) (snd (outcome_line answer)) s.

(** The daemon together with the number of ticks that wait for their
    answer. *)
Record process : Type := mkProcess {
  daemon : state;
  awaiting : nat
}.

Definition idle_process : process := mkProcess initial 0.

(** The turns of the process: the two exported functions, a running timer
    firing, and the answer to a waiting tick coming in. *)
Inductive turn : Type :=
  | Started (arg : option number)
  | Stopped
  | Fired (t : nat)
  | Answered (answer : fetch_result).

Definition take_turn (ORCHESTRATOR_URL : option string)
    (cron_validate : string -> option string) (e : turn) (p : process)
    : process :=
  match e with
  | Started arg =>
      mkProcess (snd (startHeartbeat cron_validate arg (daemon p))) (awaiting p)
  | Stopped => mkProcess (stopHeartbeat (daemon p)) (awaiting p)
  | Fired t =>
      match assoc_nat t (timers (daemon p)) with
      | Some n =>
          mkProcess (tick_begin ORCHESTRATOR_URL n (daemon p)) (S (awaiting p))
      | None => p
      end
  | Answered answer =>
      match awaiting p with
      | S k => mkProcess (tick_end answer (daemon p)) k
      | 0 => p
      end
  end.

Definition play (ORCHESTRATOR_URL : option string)
    (cron_validate : string -> option string) (turns : list turn)
    (p : process) : process :=
  fold_left (fun p e => take_turn ORCHESTRATOR_URL cron_validate e p) turns p.

(** No [startHeartbeat] among the turns. *)
Fixpoint not_started (turns : list turn) : bool :=
  match turns with
  | [] => true
  | Started _ :: _ => false
  | _ :: turns' => not_started turns'
  end.

(** How many times a timer is said to fire. *)
Fixpoint fires (ops : list op) : nat :=
  match ops with
  | [] => 0
  | Fire _ _ :: ops' => S (fires ops')
  | _ :: ops' => fires ops'
  end.

(** A node-cron that rejects the expression made from [NaN], and no
    other. *)
Definition reject_nan (expr : string) : option string :=
  if String.eqb expr "*/NaN * * * *" then Some "invalid cron expression"
  else None.

(** A node-cron that accepts every expression. *)
Definition accept_all (expr : string) : option string := None.

End Heartbeat.

(** ** lib/api.ts: the orchestrator's endpoints the front end triggers *)

Module Api.

(** [triggerLearning(id)]: a POST to this path *)
Definition triggerLearning (id : string) : string :=
  "/api/campaigns/" +:+ id +:+ "/learn".

(** [triggerMetrics(id)]: a POST to this path *)
Definition triggerMetrics (id : string) : string :=
  "/api/campaigns/" +:+ id +:+ "/collect-metrics".

End Api.

(** ** The dashboard and activity pages: merging live activity *)

Module Feed.

Section Handler.

(** The items and their ids (strings on the activity page, any value
    comparable by [Set] on the dashboard). *)
Context {item K : Type} `{Countable K}.

(** [item.id] *)
Variable id : item -> K.

(** A message of the activity socket. *)
Record event : Type := mkEvent {
  type : string;
  data : option (list item)
}.

(** [merged.filter(item => { if (seen.has(item.id)) return false;
    seen.add(item.id); return true; })], [seen] being the set so far. *)
Fixpoint filter_unseen (seen : gset K) (l : list item) : list item :=
  match l with
  | [] => []
  | x :: l' =>
      if decide (id x ∈ seen) then filter_unseen seen l'
      else x :: filter_unseen ({[id x]} ∪ seen) l'
  end.

(** An item at position [j] of [l] whose id occurs at no earlier position. *)
Definition first_occurrence (l : list item) (x : item) : Prop :=
  exists j, l !! j = Some x /\
    forall j' y, j' < j -> l !! j' = Some y -> id y <> id x.

(** The ids of a list of items, as a set. *)
Definition ids_of (l : list item) : gset K := list_to_set (id <$> l).

(** The state update of a [heartbeat] message; [cap] is the argument of
    [slice(0, cap)]. *)
Definition merge (cap : nat) (e : event) (prev : list item) : list item :=
  let incoming := default [] (data e) in
  let merged := incoming ++ prev in
  take cap (filter_unseen ∅ merged).

(** The callback given to [connectActivityWS]: the next list of items. *)
Definition on_message (cap : nat) (e : event) (prev : list item) : list item :=
  if String.eqb (type e) "initial" || String.eqb (type e) "refresh" then
    default [] (data e)
  else if String.eqb (type e) "heartbeat" then merge cap e prev
  else prev.

Definition DashboardPage_on_message := on_message 20.
Definition ActivityPage_on_message := on_message 100.

End Handler.

End Feed.

(** ** The campaign pipeline *)

Module Pipeline.

Inductive stage : Type :=
  | intent | scouting | vision | strategy | engagement
  | completed | error.

#[export] Instance stage_eq_dec : EqDecision stage.
Proof. solve_decision. Defined.

(** campaigns/[id]/page.tsx: the keys of [PIPELINE_STAGES], in order. *)
Definition PIPELINE_STAGES : list stage :=
  [intent; scouting; vision; strategy; engagement].

Record PipelineStatus : Type := mkStatus {
  current : stage;
  stages_completed : list stage;
  error_detail : option string
}.

(** Modelled from the spec: the orchestrator's [runCycle] (section 4.1) is
    not among the sources; only the page that renders its PipelineStatus
    is.  The steps of the algorithm are taken in the order the spec lists
    them, and each step that changes PipelineStatus is a write of its own
    (the status is overwritten, not versioned).  Per stage: step 1 sets the
    stage, leaving the completed stages as they are; step 3, on success,
    appends the stage name to the completed stages, leaving the stage as it
    is; step 4, on failure, sets the stage to [error], records the detail
    and ends the cycle.  Step 5 sets the stage to [completed] after the
    last stage has succeeded.  [collaborator s] is the outcome of the call
    of stage [s] (step 2): [None] on success, the error detail otherwise.
    [todo] are the stages still to run and [done] the stages completed so
    far.  The result is the sequence of statuses written. *)
Fixpoint run_stages (collaborator : stage -> option string)
    (todo done : list stage) : list PipelineStatus :=
  match todo with
  | [] => [mkStatus completed done None]
  | s :: todo' =>
      mkStatus s done None ::
      match collaborator s with
      | None =>
          mkStatus s (done ++ [s]) None ::
          run_stages collaborator todo' (done ++ [s])
      | Some detail => [mkStatus error done (Some detail)]
      end
  end.

(** Modelled from the spec: the first cycle of a campaign, which has
    completed no stage yet. *)
Definition runCycle (collaborator : stage -> option string)
    : list PipelineStatus :=
  run_stages collaborator PIPELINE_STAGES [].

(** Modelled from the spec: a cycle that resumes, skipping the stages
    already completed and recomputing none of them. *)
Definition resumeCycle (collaborator : stage -> option string)
    (st : PipelineStatus) : list PipelineStatus :=
  run_stages collaborator
    (drop (length (stages_completed st)) PIPELINE_STAGES)
    (stages_completed st).

(** Modelled from the spec: the statuses written by the resumed cycles
    that follow the status [st], each with its own collaborator
    outcomes. *)
Fixpoint resumed (st : PipelineStatus)
    (cycles : list (stage -> option string)) : list PipelineStatus :=
  match cycles with
  | [] => []
  | collaborator :: cycles' =>
      let written := resumeCycle collaborator st in
      written ++ resumed (List.last written st) cycles'
  end.

(** Modelled from the spec: the statuses a campaign goes through over its
    first cycle and the resumed cycles that follow it.  The spec does not
    say what a cycle that restarts from [intent] makes of the stages
    completed before it, so such a cycle is not part of the model. *)
Definition history (first : stage -> option string)
    (cycles : list (stage -> option string)) : list PipelineStatus :=
  let written := runCycle first in
  written ++ resumed (List.last written (mkStatus intent [] None)) cycles.

(** The stage after the last entry of the completed stages. *)
Definition next_stage (done : list stage) : option stage :=
  PIPELINE_STAGES !! length done.

(** Collaborators of which [vision] fails. *)
Definition vision_fails (s : stage) : option string :=
  match s with
  | vision => Some "vision service unavailable"
  | _ => None
  end.

(** Collaborators that all succeed. *)
Definition all_succeed (s : stage) : option string := None.

(** The invariant of PipelineStatus. *)
Definition invariant (st : PipelineStatus) : Prop :=
  NoDup (stages_completed st) /\
  stages_completed st `prefix_of` PIPELINE_STAGES /\
  (current st = error \/ current st = completed \/
   next_stage (stages_completed st) = Some (current st)).



(** campaigns/[id]/page.tsx: how the page shows a stage: with a check
    when [stages_completed] includes its key, else with a spinner when it is
    the current stage, else idle. *)
Inductive mark : Type := Done | Current | Idle.

Definition stage_mark (st : PipelineStatus) (key : stage) : mark :=
  if bool_decide (key ∈ stages_completed st) then Done
  else if bool_decide (current st = key) then Current
  else Idle.

(** [PIPELINE_STAGES.map(...)] *)
Definition render (st : PipelineStatus) : list mark :=
  map (stage_mark st) PIPELINE_STAGES.

(** [pipelineRunning]: the stage is neither [completed] nor [error]. *)
Definition pipelineRunning (st : PipelineStatus) : bool :=
  bool_decide (current st <> completed) && bool_decide (current st <> error).

End Pipeline.

(** * Properties *)

(** ** The activity feed *)

Section FeedProperties.

Import Feed.

Context {item K : Type} `{Countable K}.
Variable id : item -> K.

Lemma filter_unseen_fresh seen l x :
  x ∈ filter_unseen id seen l -> id x ∉ seen.
Proof.
  revert seen. induction l as [|a l IH]; intros seen; simpl.
  - by rewrite elem_of_nil.
  - destruct (decide (id a ∈ seen)) as [Hin|Hout].
    + apply IH.
    + rewrite elem_of_cons. intros [->|Hx]; [done|].
      apply IH in Hx. set_solver.
Qed.

Lemma filter_unseen_NoDup seen l : NoDup (id <$> filter_unseen id seen l).
Proof.
  revert seen. induction l as [|a l IH]; intros seen; simpl.
  - constructor.
  - destruct (decide (id a ∈ seen)); [apply IH|].
    rewrite fmap_cons. apply NoDup_cons. split; [|apply IH].
    rewrite list_elem_of_fmap. intros (y & Hy & Hin).
    apply filter_unseen_fresh in Hin. set_solver.
Qed.

Lemma filter_unseen_first seen l x :
  x ∈ filter_unseen id seen l -> first_occurrence id l x.
Proof.
  revert seen. induction l as [|a l IH]; intros seen; simpl.
  - by rewrite elem_of_nil.
  - destruct (decide (id a ∈ seen)) as [Hin|Hout].
    + intros Hx. pose proof (filter_unseen_fresh _ _ _ Hx) as Hfresh.
      destruct (IH _ Hx) as (j & Hj & Hbefore).
      exists (S j). split; [done|].
      intros [|j'] y Hlt Hy; simpl in Hy.
      * inversion Hy; subst. congruence.
      * apply (Hbefore j'); [lia|done].
    + rewrite elem_of_cons. intros [->|Hx].
      * exists 0. split; [done|]. intros; lia.
      * pose proof (filter_unseen_fresh _ _ _ Hx) as Hfresh.
        destruct (IH _ Hx) as (j & Hj & Hbefore).
        exists (S j). split; [done|].
        intros [|j'] y Hlt Hy; simpl in Hy.
        -- inversion Hy; subst. set_solver.
        -- apply (Hbefore j'); [lia|done].
Qed.

Lemma filter_unseen_complete seen l x :
  x ∈ l -> id x ∉ seen -> id x ∈ id <$> filter_unseen id seen l.
Proof.
  revert seen. induction l as [|a l IH]; intros seen; simpl.
  - by rewrite elem_of_nil.
  - rewrite elem_of_cons. intros Hx Hfresh.
    destruct (decide (id a ∈ seen)) as [Hin|Hout].
    + destruct Hx as [->|Hx]; [done|]. by apply IH.
    + rewrite fmap_cons, elem_of_cons.
      destruct (decide (id x = id a)) as [Heq|Hne]; [by left|right].
      destruct Hx as [->|Hx]; [done|]. apply IH; [done|].
      rewrite not_elem_of_union, not_elem_of_singleton. done.
Qed.

Lemma filter_unseen_sublist seen l : filter_unseen id seen l `sublist_of` l.
Proof.
  revert seen. induction l as [|a l IH]; intros seen; simpl.
  - constructor.
  - destruct (decide (id a ∈ seen)).
    + apply sublist_cons. apply IH.
    + apply sublist_skip. apply IH.
Qed.

(** C8: a [heartbeat] message leaves a list in which every event id occurs at
    most once; each item kept is the first (newest) occurrence of its id
    in [incoming ++ prev], the order of the merged list is kept, and an id of
    the merged list is missing only when [slice] has cut the list at [cap]
    items. *)
Theorem merge_deduplicates_by_id (cap : nat) (incoming : option (list item))
    (prev : list item) :
  let merged := default [] incoming ++ prev in
  let out := on_message id cap (mkEvent "heartbeat" incoming) prev in
  NoDup (id <$> out) /\
  (forall x, x ∈ out -> first_occurrence id merged x) /\
  out `sublist_of` merged /\
  (forall x, x ∈ merged -> id x ∈ id <$> out \/ length out = cap).
Proof.
  intros merged out.
  assert (Hout : out = take cap (filter_unseen id ∅ merged)) by done.
  rewrite Hout. repeat split.
  - rewrite fmap_take.
    eapply sublist_NoDup; [apply filter_unseen_NoDup|apply sublist_take].
  - intros x Hx. apply (filter_unseen_first ∅).
    eapply elem_of_sublist; [done|apply sublist_take].
  - etrans; [apply sublist_take|apply filter_unseen_sublist].
  - intros x Hx.
    destruct (decide (cap <= length (filter_unseen id ∅ merged))) as [Hle|Hgt].
    + right. rewrite length_take. lia.
    + left. rewrite take_ge by lia.
      apply filter_unseen_complete; [done|set_solver].
Qed.

End FeedProperties.

(** The dashboard's cap at work on (id, text) pairs: the incoming [b]
    replaces the older one, and the list is cut after three items. *)
Example merge_keeps_newest :
  Feed.on_message fst 3
    (Feed.mkEvent "heartbeat" (Some [("b", "new b"); ("c", "c")]))
    [("a", "a"); ("b", "old b"); ("d", "d")]
  = [("b", "new b"); ("c", "c"); ("a", "a")].
Proof. vm_compute. reflexivity. Qed.

(** ** The campaign pipeline *)

Section PipelineProperties.

Import Pipeline.












(** The scenario of a failing [vision] stage, then a resumed cycle. *)
Example vision_failure_then_resume :
  history vision_fails [all_succeed]
  = [mkStatus intent [] None;
     mkStatus intent [intent] None;
     mkStatus scouting [intent] None;
     mkStatus scouting [intent; scouting] None;
     mkStatus vision [intent; scouting] None;
     mkStatus error [intent; scouting] (Some "vision service unavailable");
     mkStatus vision [intent; scouting] None;
     mkStatus vision [intent; scouting; vision] None;
     mkStatus strategy [intent; scouting; vision] None;
     mkStatus strategy [intent; scouting; vision; strategy] None;
     mkStatus engagement [intent; scouting; vision; strategy] None;
     mkStatus engagement [intent; scouting; vision; strategy; engagement] None;
     mkStatus completed [intent; scouting; vision; strategy; engagement] None].
Proof. reflexivity. Qed.

(** The failing [vision] stage leaves the stage at [error] and exactly
    [intent] and [scouting] completed. *)
Example vision_failure_status :
  List.last (runCycle vision_fails) (mkStatus intent [] None)
  = mkStatus error [intent; scouting] (Some "vision service unavailable").
Proof. reflexivity. Qed.

End PipelineProperties.

(** ** The platform adapters *)

Section AgentProperties.

Ltac by_action params :=
  destruct params as [act url txt parent meta]; unfold id_prefix; simpl;
  destruct (String.eqb_spec act "comment") as [->|?];
  [|destruct (String.eqb_spec act "reply") as [->|?];
    [|destruct (String.eqb_spec act "repost") as [->|?]]];
  simpl; unfold simulated;
  repeat first [eexists | split; [reflexivity|] | reflexivity ].

Lemma TwitterAgent_execute_spec : execute_spec "twitter" TwitterAgent.
Proof.
  intros params w. unfold TwitterAgent, TwitterAgent_execute.
  by_action params.
Qed.

Lemma RedditAgent_execute_spec : execute_spec "reddit" RedditAgent.
Proof.
  intros params w. unfold RedditAgent, RedditAgent_execute.
  by_action params.
Qed.

Lemma InstagramAgent_execute_spec : execute_spec "instagram" InstagramAgent.
Proof.
  intros params w. unfold InstagramAgent, InstagramAgent_execute.
  by_action params.
Qed.

Lemma registry_cases (P : string -> agent -> Prop) :
  P "twitter" TwitterAgent -> P "reddit" RedditAgent ->
  P "instagram" InstagramAgent ->
  forall key a, assoc key platformAgents = Some a -> P key a.
Proof.
  intros Ht Hr Hi key a. unfold platformAgents. simpl.
  destruct (String.eqb_spec key "twitter") as [->|?]; [by intros [= <-]|].
  destruct (String.eqb_spec key "reddit") as [->|?]; [by intros [= <-]|].
  destruct (String.eqb_spec key "instagram") as [->|?]; [by intros [= <-]|].
  done.
Qed.

Lemma registry_execute_spec key a :
  assoc key platformAgents = Some a -> execute_spec key a.
Proof.
  revert key a. apply registry_cases.
  - apply TwitterAgent_execute_spec.
  - apply RedditAgent_execute_spec.
  - apply InstagramAgent_execute_spec.
Qed.

Lemma id_prefix_supported key action :
  key ∈ ["twitter"; "reddit"; "instagram"] ->
  action ∈ ["comment"; "reply"; "repost"] ->
  is_Some (id_prefix key action).
Proof.
  rewrite !elem_of_cons, !elem_of_nil.
  intros [->|[->|[->|[]]]] [->|[->|[->|[]]]]; by eexists.
Qed.

Lemma append_nil_l (s : string) : "" +:+ s = s.
Proof. reflexivity. Qed.

Lemma append_cons (c : ascii) (s t : string) :
  String c s +:+ t = String c (s +:+ t).
Proof. reflexivity. Qed.

(** [search] finds nothing exactly when the anchored pattern matches at no
    position of the string. *)
Lemma search_None (m : string -> option string) (s : string) :
  search m s = None <-> forall pre suf, s = pre +:+ suf -> m suf = None.
Proof.
  induction s as [|c s IH]; simpl.
  - destruct (m "") eqn:Hm.
    + split; [done|]. intros H. rewrite <- (H "" "" eq_refl). done.
    + split; [|done]. intros _ [|c pre] suf.
      * rewrite append_nil_l. by intros <-.
      * rewrite append_cons. done.
  - destruct (m (String c s)) eqn:Hm.
    + split; [done|]. intros H. rewrite <- (H "" (String c s) eq_refl). done.
    + rewrite IH. split.
      * intros H [|c' pre] suf.
        -- rewrite append_nil_l. by intros <-.
        -- rewrite append_cons. intros [= -> ->]. by apply (H pre).
      * intros H pre suf ->. by apply (H (String c pre)).
Qed.

Lemma code_inj (a b : ascii) : code a = code b -> a = b.
Proof.
  unfold code. intros H.
  rewrite <- (ascii_N_embedding a), <- (ascii_N_embedding b). by rewrite H.
Qed.

Lemma eq_char_spec (ignore_case : bool) (a b : ascii) :
  eq_char ignore_case a b = true <->
  if ignore_case then fold_case a = fold_case b else a = b.
Proof.
  unfold eq_char. destruct ignore_case; rewrite N.eqb_eq.
  - split; [apply code_inj|by intros ->].
  - split; [apply code_inj|by intros ->].
Qed.

(** The literal is stripped exactly from the strings that start with it,
    up to the case of ASCII letters under the [i] flag. *)
Lemma strip_literal_spec (ignore_case : bool) (lit s rest : string) :
  strip_literal ignore_case lit s = Some rest <->
  exists lit', s = lit' +:+ rest /\
    if ignore_case then fold_string lit' = fold_string lit else lit' = lit.
Proof.
  revert s. induction lit as [|a lit IH]; intros s; simpl.
  - split.
    + intros [= ->]. exists "". by destruct ignore_case.
    + intros (lit' & -> & Hlit).
      destruct lit' as [|c lit']; [done|]. by destruct ignore_case.
  - destruct s as [|b s].
    + split; [done|]. intros (lit' & Hs & Hlit).
      destruct lit' as [|c lit']; [by destruct ignore_case|].
      by rewrite append_cons in Hs.
    + destruct (eq_char ignore_case a b) eqn:Hab.
      * apply eq_char_spec in Hab. rewrite IH. split.
        -- intros (lit' & -> & Hlit). exists (String b lit').
           split; [done|]. destruct ignore_case; simpl; congruence.
        -- intros (lit' & Hs & Hlit).
           destruct lit' as [|c lit']; [by destruct ignore_case|].
           rewrite append_cons in Hs. injection Hs as <- ->.
           exists lit'. split; [done|].
           destruct ignore_case; simpl in Hlit; congruence.
      * split; [done|]. intros (lit' & Hs & Hlit).
        destruct lit' as [|c lit']; [by destruct ignore_case|].
        rewrite append_cons in Hs. injection Hs as <- ->.
        assert (eq_char ignore_case a b = true); [|congruence].
        apply eq_char_spec.
        destruct ignore_case; simpl in Hlit; congruence.
Qed.

Lemma take_class_nonempty (cls : ascii -> bool) (s : string) :
  take_class cls s <> "" <-> exists c rest, s = String c rest /\ cls c = true.
Proof.
  destruct s as [|c s]; simpl.
  - split; [done|]. by intros (c & rest & ? & _).
  - destruct (cls c) eqn:Hc.
    + split; [by exists c, s|done].
    + split; [done|]. intros (c' & rest & [= <- <-] & ?). congruence.
Qed.

(** The anchored pattern matches exactly when the literal is followed by a
    character of the class. *)
Lemma match_here_spec (ignore_case : bool) (lit : string)
    (cls : ascii -> bool) (s : string) :
  match_here ignore_case lit cls s <> None <->
  exists lit' c rest,
    s = lit' +:+ String c rest /\ cls c = true /\
    if ignore_case then fold_string lit' = fold_string lit else lit' = lit.
Proof.
  unfold match_here.
  destruct (strip_literal ignore_case lit s) as [after|] eqn:Hstrip.
  - apply strip_literal_spec in Hstrip as (lit' & -> & Hlit).
    assert (Hne : (match take_class cls after with
                   | "" => None
                   | String c cap => Some (String c cap)
                   end <> None) <-> take_class cls after <> "")
      by (by destruct (take_class cls after)).
    rewrite Hne, take_class_nonempty. split.
    + intros (c & rest & -> & Hc). by exists lit', c, rest.
    + intros (lit2 & c & rest & Hs & Hc & Hlit2).
      assert (strip_literal ignore_case lit (lit' +:+ after)
              = Some (String c rest)) as Hstrip2.
      { apply strip_literal_spec. by exists lit2. }
      assert (strip_literal ignore_case lit (lit' +:+ after) = Some after)
        as Hstrip1.
      { apply strip_literal_spec. by exists lit'. }
      rewrite Hstrip1 in Hstrip2. injection Hstrip2 as ->. by exists c, rest.
  - split; [done|]. intros (lit' & c & rest & -> & Hc & Hlit).
    assert (strip_literal ignore_case lit (lit' +:+ String c rest)
            = Some (String c rest)) as Hstrip2.
    { apply strip_literal_spec. by exists lit'. }
    congruence.
Qed.

Lemma search_None_spec (m : string -> option string) (s : string) :
  search m s = None <-> ~ exists pre suf, s = pre +:+ suf /\ m suf <> None.
Proof.
  rewrite search_None. split.
  - intros H (pre & suf & Hs & Hm). by apply Hm, (H pre).
  - intros H pre suf Hs. destruct (m suf) eqn:Hm; [|done].
    destruct H. exists pre, suf. split; [done|]. by rewrite Hm.
Qed.

Lemma extractTweetId_fallback (url : string) :
  ~ has_tweet_id url -> extractTweetId url = "".
Proof.
  intros Hno. unfold extractTweetId.
  rewrite (proj2 (search_None_spec _ _)); [done|].
  intros (pre & suf & -> & Hm). apply match_here_spec in Hm.
  destruct Hm as (lit' & c & rest & -> & Hc & ->).
  apply Hno. by exists pre, c, rest.
Qed.

Lemma extractRedditId_fallback (url : string) :
  ~ has_reddit_id url -> extractRedditId url = "".
Proof.
  intros Hno. unfold extractRedditId.
  rewrite (proj2 (search_None_spec _ _)); [done|].
  intros (pre & suf & -> & Hm). apply match_here_spec in Hm.
  destruct Hm as (lit' & c & rest & -> & Hc & Hlit).
  apply Hno. by exists pre, lit', c, rest.
Qed.

Lemma extractIgShortcode_fallback (url : string) :
  ~ has_ig_shortcode url -> extractIgShortcode url = "".
Proof.
  intros Hno. unfold extractIgShortcode.
  rewrite (proj2 (search_None_spec _ _)); [done|].
  intros (pre & suf & -> & Hm). apply Hno.
  assert (match_here false "/p/" is_shortcode_char suf <> None \/
          match_here false "/reel/" is_shortcode_char suf <> None) as Halt.
  { unfold match_ig in Hm.
    destruct (match_here false "/p/" is_shortcode_char suf); [by left|by right]. }
  destruct Halt as [Hp|Hreel].
  - apply match_here_spec in Hp as (lit' & c & rest & -> & Hc & ->).
    exists pre, c, rest. split; [by left|done].
  - apply match_here_spec in Hreel as (lit' & c & rest & -> & Hc & ->).
    exists pre, c, rest. split; [by right|done].
Qed.

Lemma match_here_capture (ignore_case : bool) (lit : string)
    (cls : ascii -> bool) (s cap : string) :
  match_here ignore_case lit cls s = Some cap -> cap <> "".
Proof.
  unfold match_here. destruct (strip_literal _ _ _) as [after|]; [|done].
  destruct (take_class cls after); [done|]. by intros [= <-].
Qed.

Lemma search_Some (m : string -> option string) (s cap : string) :
  search m s = Some cap -> exists pre suf, s = pre +:+ suf /\ m suf = Some cap.
Proof.
  induction s as [|c s IH]; simpl.
  - destruct (m "") eqn:Hm; [|done]. intros [= <-]. by exists "", "".
  - destruct (m (String c s)) eqn:Hm.
    + intros [= <-]. by exists "", (String c s).
    + intros Hs. destruct (IH Hs) as (pre & suf & -> & Hsuf).
      by exists (String c pre), suf.
Qed.

(** A URL with a tweet id yields a non-empty id. *)
Lemma extractTweetId_found (url : string) :
  has_tweet_id url -> extractTweetId url <> "".
Proof.
  intros (pre & c & rest & -> & Hc). unfold extractTweetId.
  destruct (search _ _) as [cap|] eqn:Hsearch.
  - apply search_Some in Hsearch as (pre' & suf & _ & Hm).
    by apply match_here_capture in Hm.
  - apply search_None_spec in Hsearch. destruct Hsearch.
    exists pre, ("status/" +:+ String c rest). split; [done|].
    apply match_here_spec. by exists "status/", c, rest.
Qed.

(** C9: for each registered adapter, each of the three actions and every
    post URL, [execute] returns a simulated result and does not throw; where
    the URL has nothing the platform's pattern matches, the extracted id is
    the empty string. *)
Theorem execute_total_on_any_url (key : string) (a : agent)
    (params : ExecuteParams) (w : world) :
  assoc key platformAgents = Some a ->
  action params ∈ ["comment"; "reply"; "repost"] ->
  (exists r w', execute a params w = (Returned r, w') /\ simulated r) /\
  (~ has_tweet_id (postUrl params) -> extractTweetId (postUrl params) = "") /\
  (~ has_reddit_id (postUrl params) ->
   extractRedditId (postUrl params) = "") /\
  (~ has_ig_shortcode (postUrl params) ->
   extractIgShortcode (postUrl params) = "").
Proof.
  intros Ha Hact. split; [|repeat split].
  - pose proof (registry_execute_spec _ _ Ha params w) as Hspec.
    destruct (id_prefix_supported key (action params)) as [prefix Hp];
      [|done|].
    { revert Ha. unfold platformAgents; simpl.
      rewrite !elem_of_cons.
      destruct (String.eqb_spec key "twitter"); [by left|].
      destruct (String.eqb_spec key "reddit"); [by right; left|].
      destruct (String.eqb_spec key "instagram"); [by right; right; left|].
      done. }
    rewrite Hp in Hspec. destruct Hspec as (r & w' & Hex & Hsim & _).
    by exists r, w'.
  - apply extractTweetId_fallback.
  - apply extractRedditId_fallback.
  - apply extractIgShortcode_fallback.
Qed.

Lemma execute_total_on_any_url_witness :
  let params := mkParams "repost" "not a url at all" "hello" None [] in
  assoc "instagram" platformAgents = Some InstagramAgent /\
  action params ∈ ["comment"; "reply"; "repost"] /\
  (exists r w', execute InstagramAgent params (world_half 1700000000000)
                = (Returned r, w') /\ simulated r) /\
  extractIgShortcode (postUrl params) = "".
Proof.
  intros params.
  assert (Ha : assoc "instagram" platformAgents = Some InstagramAgent)
    by reflexivity.
  assert (Hact : action params ∈ ["comment"; "reply"; "repost"]).
  { rewrite !elem_of_cons. right; right; left. reflexivity. }
  split; [exact Ha|]. split; [exact Hact|].
  destruct (execute_total_on_any_url "instagram" InstagramAgent params
              (world_half 1700000000000) Ha Hact) as (Hret & _ & _ & Hig).
  split; [exact Hret|]. reflexivity.
Defined.

(** A callback that always returns makes [map] return, one result per
    element and in order. *)
Lemma mapM_returns {A B : Type} (P : A -> B -> Prop) (f : A -> M B)
    (l : list A) (w : world) :
  (forall x w, exists y w', f x w = (Returned y, w') /\ P x y) ->
  exists ys w', mapM f l w = (Returned ys, w') /\ Forall2 P l ys.
Proof.
  intros Hf. revert w. induction l as [|x l IH]; intros w.
  - exists [], w. split; [reflexivity|constructor].
  - destruct (Hf x w) as (y & w1 & Hy & HP).
    destruct (IH w1) as (ys & w2 & Hys & HPs).
    exists (y :: ys), w2. split; [|by constructor].
    simpl. unfold mbind, M_bind at 1. rewrite Hy.
    unfold mbind, M_bind at 1. fold (@mapM M _ _ A B f).
    rewrite Hys. reflexivity.
Qed.

(** What [collectMetrics] does for a batch. *)
Lemma collectMetrics_spec key a :
  assoc key platformAgents = Some a ->
  forall postIds w,
    exists ms w',
      collectMetrics a postIds w = (Returned ms, w') /\
      Forall2 (fun id m => post_id m = id /\ status m = "simulated")
              postIds ms.
Proof.
  revert key a.
  apply (registry_cases (fun _ a => forall postIds w, exists ms w',
           collectMetrics a postIds w = (Returned ms, w') /\
           Forall2 (fun id m => post_id m = id /\ status m = "simulated")
                   postIds ms));
    intros postIds w; simpl;
    unfold TwitterAgent_collectMetrics, RedditAgent_collectMetrics,
      InstagramAgent_collectMetrics;
    unfold mbind at 1, M_bind at 1; simpl;
    apply mapM_returns; intros x w1; eexists _, _; (split; [reflexivity|done]).
Qed.

(** Two batches of the same length mapped from the same world: when the
    callback treats any two elements alike, so does [map]. *)
Lemma mapM_alike {A B : Type} (R : B -> B -> Prop) (f : A -> M B)
    (l l' : list A) (w : world) :
  (forall x x' w, exists y y' w',
      f x w = (Returned y, w') /\ f x' w = (Returned y', w') /\ R y y') ->
  length l = length l' ->
  exists ys ys' w',
    mapM f l w = (Returned ys, w') /\ mapM f l' w = (Returned ys', w') /\
    Forall2 R ys ys'.
Proof.
  intros Hf. revert l' w. induction l as [|x l IH]; intros [|x' l'] w Hlen;
    simplify_eq/=.
  - exists [], [], w. repeat split; constructor.
  - destruct (Hf x x' w) as (y & y' & w1 & Hy & Hy' & HR).
    destruct (IH l' w1 Hlen) as (ys & ys' & w2 & Hys & Hys' & HRs).
    exists (y :: ys), (y' :: ys'), w2.
    split; [|split; [|by constructor]].
    + unfold mbind, M_bind at 1. rewrite Hy.
      unfold mbind, M_bind at 1. fold (@mapM M _ _ A B f).
      rewrite Hys. reflexivity.
    + unfold mbind, M_bind at 1. rewrite Hy'.
      unfold mbind, M_bind at 1. fold (@mapM M _ _ A B f).
      rewrite Hys'. reflexivity.
Qed.

(** The counters [collectMetrics] returns do not depend on the ids. *)
Lemma collectMetrics_ignores_ids key a :
  assoc key platformAgents = Some a ->
  forall postIds postIds' w,
    length postIds = length postIds' ->
    exists ms ms' w',
      collectMetrics a postIds w = (Returned ms, w') /\
      collectMetrics a postIds' w = (Returned ms', w') /\
      Forall2 same_counters ms ms'.
Proof.
  revert key a.
  apply (registry_cases (fun _ a => forall postIds postIds' w,
           length postIds = length postIds' ->
           exists ms ms' w',
             collectMetrics a postIds w = (Returned ms, w') /\
             collectMetrics a postIds' w = (Returned ms', w') /\
             Forall2 same_counters ms ms'));
    intros postIds postIds' w Hlen; simpl;
    unfold TwitterAgent_collectMetrics, RedditAgent_collectMetrics,
      InstagramAgent_collectMetrics;
    unfold mbind at 1 3, M_bind at 1 3; simpl; rewrite <- Hlen;
    (apply mapM_alike; [|done]); intros x x' w1; eexists _, _, _;
    (split; [reflexivity|split; [reflexivity|]]); by repeat split.
Qed.

(** C3, as the adapters have it: for every registered adapter and every
    batch of post ids, [collectMetrics] does not throw and returns one
    metrics record per id, in the order of the batch, each with its id and
    the status [simulated]; no id is looked up: any other batch of the same
    length gets the same counters, drawn from [Math.random]. *)
Theorem collectMetrics_one_result_per_id :
  Forall (fun ka : string * agent =>
            forall (postIds : list string) (w : world),
              exists ms w',
                collectMetrics ka.2 postIds w = (Returned ms, w') /\
                length ms = length postIds /\
                map post_id ms = postIds /\
                Forall (fun m => status m = "simulated") ms /\
                forall postIds', length postIds = length postIds' ->
                  exists ms',
                    collectMetrics ka.2 postIds' w = (Returned ms', w') /\
                    Forall2 same_counters ms ms')
         platformAgents.
Proof.
  apply Forall_forall. intros [key a] Hin postIds w.
  assert (Ha : assoc key platformAgents = Some a).
  { revert Hin. unfold platformAgents. rewrite !elem_of_cons, elem_of_nil.
    intros [[= -> ->]|[[= -> ->]|[[= -> ->]|[]]]]; reflexivity. }
  destruct (collectMetrics_spec _ _ Ha postIds w) as (ms & w' & Hms & Hall).
  exists ms, w'. split; [done|]. simpl. repeat split.
  - symmetry. eapply Forall2_length. done.
  - clear Hms. induction Hall as [|id m ids ms [Hid _] _ IH]; [done|].
    simpl. by rewrite Hid, IH.
  - clear Hms. induction Hall as [|id m ids ms [_ Hst] _ IH]; by constructor.
  - intros postIds' Hlen.
    destruct (collectMetrics_ignores_ids _ _ Ha postIds postIds' w Hlen)
      as (ms1 & ms' & w1 & Hms1 & Hms' & Hsame).
    rewrite Hms in Hms1. injection Hms1 as <- <-. by exists ms'.
Qed.

(** C3, as stated, fails: in a batch of a tweet id and a string that is no
    tweet id, the second gets the same simulated draws as the first, and
    they are not zero. *)
Lemma collectMetrics_bogus_id_not_zeroed :
  exists m1 m2,
    fst (TwitterAgent_collectMetrics ["1893"; "not a tweet id"]
           (world_half 1700000000000))
    = Returned [m1; m2] /\
    post_id m2 = "not a tweet id" /\ impressions m2 = 5000%Z /\ ~ zeroed m2.
Proof.
  eexists _, _. split; [vm_compute; reflexivity|]. simpl.
  repeat split. intros [H _]. discriminate H.
Qed.

End AgentProperties.

(** ** The bridge router *)

Section BridgeProperties.

Ltac run_monad :=
  unfold mbind, M_bind, mret, M_ret, try_catch, log, record_call, throw,
    uuidv4; simpl.

(** A request for a registered platform: the adapter is invoked once, and
    the response is a success carrying the adapter's id, or an error
    carrying what the adapter threw. *)
Lemma post_api_execute_own (req : ExecuteRequest) (w : world) (a : agent) :
  assoc (req_platform req) platformAgents = Some a ->
  exists w',
    calls w' = calls w ++ [(req_platform req, "execute")] /\
    match id_prefix (req_platform req) (req_action req) with
    | Some prefix =>
        exists result,
          post_api_execute platformAgents req w
          = (Returned
               (mkResponse 200
                  (JObj [("status", JStr "success");
                         ("platform_post_id",
                          JStr (prefix +:+ pretty (clock w)));
                         ("platform", JStr (req_platform req));
                         ("action", JStr (req_action req));
                         ("result", result)])), w')
    | None =>
        post_api_execute platformAgents req w
        = (Returned
             (mkResponse 500
                (JObj [("status", JStr "error");
                       ("error",
                        JStr ("Unsupported action: " +:+ req_action req));
                       ("platform", JStr (req_platform req));
                       ("action", JStr (req_action req))])), w')
    end.
Proof.
  intros Ha. unfold post_api_execute, get_property. rewrite Ha.
  unfold call_execute. run_monad.
  match goal with
  | |- context [execute a ?p ?w1] =>
      pose proof (registry_execute_spec _ _ Ha p w1) as Hspec
  end.
  simpl in Hspec.
  destruct (id_prefix (req_platform req) (req_action req)) as [prefix|].
  - destruct Hspec as (r & w' & -> & [_ (c & s & Hid)] & Hid' & Hclock & Hcalls & _).
    simpl in Hclock, Hcalls. rewrite Hid. rewrite Hid in Hid'.
    injection Hid' as Hid'. rewrite Hid', Hclock.
    eexists. split; [|eexists; reflexivity]. simpl. done.
  - destruct Hspec as (w' & -> & _ & Hcalls). simpl in Hcalls.
    eexists. split; [|reflexivity]. simpl. done.
Qed.

(** A platform that [registry[platform]] does not find is answered with
    400 and the adapters are left alone, on both endpoints. *)
Lemma undefined_platform_rejected (platform : string) :
  get_property platformAgents platform = None ->
  (forall req w, req_platform req = platform ->
     exists w', post_api_execute platformAgents req w
                = (Returned (unsupported platform), w') /\
                calls w' = calls w) /\
  (forall req w, mreq_platform req = platform ->
     exists w', post_api_metrics platformAgents req w
                = (Returned (unsupported platform), w') /\
                calls w' = calls w).
Proof.
  intros Hnone. split; intros req w <-.
  - unfold post_api_execute. rewrite Hnone. run_monad.
    eexists. split; reflexivity.
  - unfold post_api_metrics. rewrite Hnone. run_monad.
    eexists. split; reflexivity.
Qed.

(** A platform that is not registered never reaches an adapter and never
    gets a success response, whatever [registry[platform]] finds. *)
Lemma unregistered_platform_never_succeeds (req : ExecuteRequest) (w : world) :
  assoc (req_platform req) platformAgents = None ->
  exists r w',
    post_api_execute platformAgents req w = (Returned r, w') /\
    calls w' = calls w /\
    (http_status r = 400 \/ http_status r = 500)%Z /\
    platform_post_id r = None.
Proof.
  intros Hnone. unfold post_api_execute, get_property. rewrite Hnone.
  destruct (bool_decide _); run_monad; eexists _, _;
    (split; [reflexivity|]); simpl; auto.
Qed.

(** C1 at the failing input: [constructor] is no registered platform, yet
    [platformAgents["constructor"]] is truthy, so the guard lets it through
    and the request ends in the catch branch: a 500 whose message is the
    TypeError, not the 400 of an unsupported platform.  The same holds on
    the metrics endpoint.  No adapter is invoked either way. *)
Theorem inherited_key_passes_the_guard :
  assoc "constructor" platformAgents = None /\
  (let rw := post_api_execute platformAgents constructor_request
               (world_half 1700000000000) in
   fst rw = Returned (execute_error "agent.execute is not a function"
                        constructor_request) /\
   fst rw <> Returned (unsupported "constructor") /\
   calls (snd rw) = []) /\
  (let rw := post_api_metrics platformAgents
               (mkMetricsRequest "constructor" ["1893"])
               (world_half 1700000000000) in
   fst rw = Returned
              (mkResponse 500
                 (JObj [("error",
                         JStr "agent.collectMetrics is not a function");
                        ("platform", JStr "constructor")])) /\
   calls (snd rw) = []).
Proof.
  split; [reflexivity|]. split.
  - split; [vm_compute; reflexivity|]. split; [|vm_compute; reflexivity].
    vm_compute. discriminate.
  - split; vm_compute; reflexivity.
Qed.

(** C2: whatever the registry, when the call of the adapter registered
    under the request's platform throws, the router answers with one error
    response (500, status [error]) carrying the message, the platform and
    the action; the adapter has been called once, from [at_adapter_call],
    and after the throw the router only logs the failure: it does not call
    the adapter again. *)
Theorem adapter_throw_surfaces_as_error
    (registry : list (string * agent)) (req : ExecuteRequest) (a : agent)
    (w thrown : world) (message : string) :
  assoc (req_platform req) registry = Some a ->
  execute a (execute_params req) (at_adapter_call req w)
  = (Threw message, thrown) ->
  exists w',
    post_api_execute registry req w
    = (Returned (execute_error message req), w') /\
    calls (at_adapter_call req w) = calls w ++ [(req_platform req, "execute")] /\
    calls w' = calls thrown /\
    clock w' = clock thrown /\
    logs w' = logs thrown ++
              [(Error, "Execute failed: " +:+ req_action req +:+ " on "
                       +:+ req_platform req +:+ " — " +:+ message)].
Proof.
  intros Ha Hthrow. unfold post_api_execute, get_property. rewrite Ha.
  unfold call_execute. run_monad.
  unfold execute_params, at_adapter_call in Hthrow. rewrite Hthrow.
  eexists. split; [reflexivity|]. simpl. done.
Qed.

Lemma adapter_throw_surfaces_as_error_witness :
  let w := world_half 1700000000000 in
  let thrown := snd (execute RedditAgent (execute_params like_request)
                       (at_adapter_call like_request w)) in
  assoc (req_platform like_request) platformAgents = Some RedditAgent /\
  execute RedditAgent (execute_params like_request)
    (at_adapter_call like_request w)
  = (Threw "Unsupported action: like", thrown) /\
  exists w',
    post_api_execute platformAgents like_request w
    = (Returned (execute_error "Unsupported action: like" like_request), w') /\
    calls w' = [("reddit", "execute")].
Proof.
  intros w thrown.
  assert (Ha : assoc (req_platform like_request) platformAgents
               = Some RedditAgent) by reflexivity.
  assert (Hthrow : execute RedditAgent (execute_params like_request)
                     (at_adapter_call like_request w)
                   = (Threw "Unsupported action: like", thrown))
    by reflexivity.
  split; [exact Ha|]. split; [exact Hthrow|].
  destruct (adapter_throw_surfaces_as_error platformAgents like_request
              RedditAgent w thrown "Unsupported action: like" Ha Hthrow)
    as (w' & Hresp & _ & Hcalls & _).
  exists w'. split; [exact Hresp|]. rewrite Hcalls. reflexivity.
Defined.

Lemma id_prefix_rows (key action prefix : string) :
  id_prefix key action = Some prefix ->
  (key, action, prefix) ∈
    [("twitter", "comment", "tw_reply_"); ("twitter", "reply", "tw_thread_");
     ("twitter", "repost", "tw_qt_");
     ("reddit", "comment", "rd_comment_"); ("reddit", "reply", "rd_reply_");
     ("reddit", "repost", "rd_xpost_");
     ("instagram", "comment", "ig_comment_");
     ("instagram", "reply", "ig_reply_");
     ("instagram", "repost", "ig_story_")].
Proof.
  unfold id_prefix. simpl. rewrite !elem_of_cons.
  destruct (String.eqb_spec key "twitter") as [->|?];
    [|destruct (String.eqb_spec key "reddit") as [->|?];
      [|destruct (String.eqb_spec key "instagram") as [->|?]; [|done]]];
    simpl;
    (destruct (String.eqb_spec action "comment") as [->|?];
     [|destruct (String.eqb_spec action "reply") as [->|?];
       [|destruct (String.eqb_spec action "repost") as [->|?]; [|done]]]);
    intros [= <-]; tauto.
Qed.

(** The ids of two supported (platform, action) pairs agree only for the
    same pair and the same clock reading. *)
Lemma simulated_id_injective (k1 a1 p1 k2 a2 p2 : string) (n1 n2 : N) :
  id_prefix k1 a1 = Some p1 -> id_prefix k2 a2 = Some p2 ->
  p1 +:+ pretty n1 = p2 +:+ pretty n2 ->
  k1 = k2 /\ a1 = a2 /\ n1 = n2.
Proof.
  intros H1 H2. apply id_prefix_rows in H1, H2. revert H1 H2.
  rewrite !elem_of_cons, !elem_of_nil.
  intros H1 H2 Heq.
  repeat match goal with
         | H : _ \/ _ |- _ => destruct H as [H|H]
         | H : False |- _ => destruct H
         | H : (_, _, _) = (_, _, _) |- _ => injection H as -> -> ->
         end;
    first [ discriminate Heq
          | apply String.app_inj in Heq; apply pretty_N_inj in Heq; done ].
Qed.

(** A success response carries the adapter's prefix for the action followed
    by the clock reading of the call, and the adapter has been called. *)
Lemma success_id (req : ExecuteRequest) (w w' : world) (r : response)
    (id : string) :
  post_api_execute platformAgents req w = (Returned r, w') ->
  platform_post_id r = Some id ->
  calls w' = calls w ++ [(req_platform req, "execute")] /\
  exists prefix,
    id_prefix (req_platform req) (req_action req) = Some prefix /\
    id = prefix +:+ pretty (clock w).
Proof.
  intros Hrun Hid.
  destruct (assoc (req_platform req) platformAgents) as [a|] eqn:Ha.
  - destruct (post_api_execute_own req w a Ha) as (w1 & Hcalls & Hown).
    destruct (id_prefix (req_platform req) (req_action req)) as [prefix|].
    + destruct Hown as (result & Hown). rewrite Hown in Hrun.
      injection Hrun as <- <-. split; [done|]. exists prefix. split; [done|].
      unfold platform_post_id in Hid. simpl in Hid. congruence.
    + rewrite Hown in Hrun. injection Hrun as <- <-. done.
  - destruct (unregistered_platform_never_succeeds req w Ha)
      as (r1 & w1 & Hrun1 & _ & _ & Hnone).
    congruence.
Qed.

(** C6, as the gateway has it: every successful call goes to the adapter
    (nothing is answered from an earlier call), and the id it returns is
    the adapter's prefix for the action followed by [Date.now()]; so two
    successful calls return the same id exactly when they agree on the
    platform, the action and the clock reading, in milliseconds. *)
Theorem post_ids_equal_iff_same_millisecond
    (req1 req2 : ExecuteRequest) (w1 w2 w1' w2' : world)
    (r1 r2 : response) (id1 id2 : string) :
  post_api_execute platformAgents req1 w1 = (Returned r1, w1') ->
  platform_post_id r1 = Some id1 ->
  post_api_execute platformAgents req2 w2 = (Returned r2, w2') ->
  platform_post_id r2 = Some id2 ->
  calls w1' = calls w1 ++ [(req_platform req1, "execute")] /\
  calls w2' = calls w2 ++ [(req_platform req2, "execute")] /\
  (exists prefix,
     id_prefix (req_platform req1) (req_action req1) = Some prefix /\
     id1 = prefix +:+ pretty (clock w1)) /\
  (exists prefix,
     id_prefix (req_platform req2) (req_action req2) = Some prefix /\
     id2 = prefix +:+ pretty (clock w2)) /\
  (id1 = id2 <->
   req_platform req1 = req_platform req2 /\
   req_action req1 = req_action req2 /\
   clock w1 = clock w2).
Proof.
  intros Hrun1 Hid1 Hrun2 Hid2.
  destruct (success_id _ _ _ _ _ Hrun1 Hid1) as (Hcalls1 & p1 & Hp1 & ->).
  destruct (success_id _ _ _ _ _ Hrun2 Hid2) as (Hcalls2 & p2 & Hp2 & ->).
  split; [done|]. split; [done|].
  split; [by exists p1|]. split; [by exists p2|]. split.
  - by apply simulated_id_injective.
  - intros (Hk & Ha & Hc). rewrite Hk, Ha in Hp1. congruence.
Qed.

Lemma post_ids_equal_iff_same_millisecond_witness :
  let w1 := world_half 1700000000000 in
  let w2 := advance 1 (snd (post_api_execute platformAgents comment_request w1)) in
  exists r1 w1' r2 w2',
    post_api_execute platformAgents comment_request w1 = (Returned r1, w1') /\
    platform_post_id r1 = Some "tw_reply_1700000000000" /\
    post_api_execute platformAgents comment_request w2 = (Returned r2, w2') /\
    platform_post_id r2 = Some "tw_reply_1700000000001" /\
    ("tw_reply_1700000000000" = "tw_reply_1700000000001" <->
     req_platform comment_request = req_platform comment_request /\
     req_action comment_request = req_action comment_request /\
     clock w1 = clock w2).
Proof.
  intros w1 w2.
  assert (H1 : exists r1 w1',
             post_api_execute platformAgents comment_request w1
             = (Returned r1, w1') /\
             platform_post_id r1 = Some "tw_reply_1700000000000")
    by (eexists _, _; split; reflexivity).
  assert (H2 : exists r2 w2',
             post_api_execute platformAgents comment_request w2
             = (Returned r2, w2') /\
             platform_post_id r2 = Some "tw_reply_1700000000001")
    by (eexists _, _; split; reflexivity).
  destruct H1 as (r1 & w1' & Hrun1 & Hid1).
  destruct H2 as (r2 & w2' & Hrun2 & Hid2).
  exists r1, w1', r2, w2'.
  split; [exact Hrun1|]. split; [exact Hid1|].
  split; [exact Hrun2|]. split; [exact Hid2|].
  exact (proj2 (proj2 (proj2 (proj2
           (post_ids_equal_iff_same_millisecond comment_request
              comment_request w1 w2 w1' w2' r1 r2 _ _
              Hrun1 Hid1 Hrun2 Hid2))))).
Defined.

(** C6, as stated, fails: the same request served twice within one
    millisecond is two adapter calls and two success responses with one and
    the same id. *)
Lemma same_millisecond_same_post_id :
  let w1 := world_half 1700000000000 in
  let run1 := post_api_execute platformAgents comment_request w1 in
  let run2 := post_api_execute platformAgents comment_request
                (advance 0 (snd run1)) in
  exists r1 r2,
    fst run1 = Returned r1 /\ fst run2 = Returned r2 /\
    platform_post_id r1 = Some "tw_reply_1700000000000" /\
    platform_post_id r2 = Some "tw_reply_1700000000000" /\
    calls (snd run2) = [("twitter", "execute"); ("twitter", "execute")].
Proof.
  intros w1 run1 run2. eexists _, _.
  split; [reflexivity|]. split; [reflexivity|].
  split; [reflexivity|]. split; reflexivity.
Qed.

End BridgeProperties.

(** ** The heartbeat daemon *)

Section HeartbeatProperties.

Import Heartbeat.

Variable ORCHESTRATOR_URL : option string.
Variable cron_validate : string -> option string.

Lemma tick_keeps_timers n answer s :
  heartbeatTask (tick ORCHESTRATOR_URL n answer s) = heartbeatTask s /\
  timers (tick ORCHESTRATOR_URL n answer s) = timers s.
Proof.
  unfold tick, notifyOrchestrator.
  destruct answer as [status|message]; [destruct (ok status)|]; done.
Qed.

Lemma stop_only_timer (t : nat) (n : number) :
  filter (fun tc : nat * number => tc.1 <> t) [(t, n)] = [].
Proof. rewrite filter_cons_False by (simpl; tauto). done. Qed.

Lemma startHeartbeat_consistent arg s :
  consistent s -> consistent (snd (startHeartbeat cron_validate arg s)).
Proof.
  unfold consistent, startHeartbeat, cron_schedule.
  destruct (heartbeatTask s) as [t|] eqn:Ht; simpl.
  - by rewrite Ht.
  - intros Hnil. destruct (cron_validate _); simpl.
    + by rewrite Ht.
    + rewrite Hnil. by eexists.
Qed.

Lemma stopHeartbeat_consistent s :
  consistent s -> consistent (stopHeartbeat s).
Proof.
  unfold consistent, stopHeartbeat.
  destruct (heartbeatTask s) as [t|] eqn:Ht; simpl.
  - intros [m ->]. by rewrite stop_only_timer.
  - by rewrite Ht.
Qed.

Lemma run_op_consistent o s :
  consistent s -> consistent (run_op ORCHESTRATOR_URL cron_validate o s).
Proof.
  destruct o as [arg| |t answer]; simpl.
  - apply startHeartbeat_consistent.
  - apply stopHeartbeat_consistent.
  - destruct (assoc_nat t (timers s)) as [m|]; [|done].
    unfold consistent.
    destruct (tick_keeps_timers m answer s) as [-> ->]. done.
Qed.

Lemma run_consistent ops s :
  consistent s -> consistent (run ORCHESTRATOR_URL cron_validate ops s).
Proof.
  revert s. induction ops as [|o ops IH]; intros s Hs; [done|].
  apply IH, run_op_consistent, Hs.
Qed.

Lemma consistent_at_most_one s : consistent s -> length (timers s) <= 1.
Proof.
  unfold consistent. destruct (heartbeatTask s).
  - intros [m ->]. simpl. lia.
  - intros ->. simpl. lia.
Qed.

(** C4 on the code: a heartbeat tick logs its line and sends one request,
    a GET of the orchestrator's health endpoint; it sends no request that
    triggers metrics collection or learning for any campaign, and leaves the
    handle and the timers as they are. *)
Theorem tick_only_checks_health (n : number) (answer : fetch_result)
    (s : state) :
  let s' := tick ORCHESTRATOR_URL n answer s in
  let sent :=
    [mkRequest "GET"
       (or_else ORCHESTRATOR_URL "http://localhost:8000" +:+ "/api/health")] in
  requests s' = requests s ++ sent /\
  (forall base campaign,
     (mkRequest "POST" (base +:+ Api.triggerMetrics campaign) ∉ sent) /\
     (mkRequest "POST" (base +:+ Api.triggerLearning campaign) ∉ sent)) /\
  heartbeatTask s' = heartbeatTask s /\ timers s' = timers s.
Proof.
  intros s' sent. split; [|split].
  - unfold s', tick, notifyOrchestrator.
    destruct answer as [status|message]; [destruct (ok status)|]; done.
  - intros base campaign. unfold sent.
    rewrite !elem_of_cons, !elem_of_nil. split; intros [[=]|[]].
  - apply tick_keeps_timers.
Qed.

(** C5: while a task is scheduled, [startHeartbeat] only logs a warning:
    the handle, the timers and node-cron's counter stay as they are.  From
    the start of the process, whatever is started, stopped or fired, at
    most one timer runs. *)
Theorem startHeartbeat_while_running_is_noop (arg : option number)
    (s : state) (t : nat) (ops : list op) :
  heartbeatTask s = Some t ->
  startHeartbeat cron_validate arg s
  = (Returned tt, say Warn "Heartbeat already running" s) /\
  heartbeatTask (snd (startHeartbeat cron_validate arg s)) = Some t /\
  timers (snd (startHeartbeat cron_validate arg s)) = timers s /\
  next_task (snd (startHeartbeat cron_validate arg s)) = next_task s /\
  length (timers (run ORCHESTRATOR_URL cron_validate ops initial)) <= 1.
Proof.
  intros Ht. unfold startHeartbeat. rewrite Ht. simpl.
  repeat split; [done|].
  apply consistent_at_most_one, run_consistent. reflexivity.
Qed.

Lemma start_from_idle (arg : option number) (s : state) :
  heartbeatTask s = None -> timers s = [] ->
  match cron_validate (cron_expression arg) with
  | Some message => startHeartbeat cron_validate arg s = (Threw message, s)
  | None =>
      exists s',
        startHeartbeat cron_validate arg s = (Returned tt, s') /\
        heartbeatTask s' = Some (next_task s) /\
        timers s' = [(next_task s, default (Int 30) arg)]
  end.
Proof.
  intros Hnone Hnil. unfold startHeartbeat, cron_schedule.
  rewrite Hnone. fold (cron_expression arg).
  destruct (cron_validate (cron_expression arg)); [done|].
  eexists. split; [reflexivity|]. simpl. by rewrite Hnil.
Qed.

Lemma stop_running (s : state) (t : nat) (n : number) :
  heartbeatTask s = Some t -> timers s = [(t, n)] ->
  heartbeatTask (stopHeartbeat s) = None /\ timers (stopHeartbeat s) = [].
Proof.
  intros Ht Htimers. unfold stopHeartbeat. rewrite Ht. simpl.
  rewrite Htimers. by rewrite stop_only_timer.
Qed.

Lemma stop_idle (s : state) : heartbeatTask s = None -> stopHeartbeat s = s.
Proof. intros Hnone. unfold stopHeartbeat. by rewrite Hnone. Qed.

(** C10: from a state of the process in which no task is scheduled, a
    [startHeartbeat] that returns followed by [stopHeartbeat] leaves no
    handle and the timers as before (none); a later [startHeartbeat] then
    has the outcome it has from the initial state and leaves the same to
    observe (a handle, one timer with the asked interval, when node-cron
    accepts the expression); [stopHeartbeat] without a handle changes
    nothing. *)
Theorem start_stop_round_trip (ops : list op) (arg again : option number)
    (started : state) :
  let s := run ORCHESTRATOR_URL cron_validate ops initial in
  heartbeatTask s = None ->
  startHeartbeat cron_validate arg s = (Returned tt, started) ->
  let stopped := stopHeartbeat started in
  is_Some (heartbeatTask started) /\
  heartbeatTask stopped = None /\
  timers stopped = timers s /\
  observe stopped = observe initial /\
  fst (startHeartbeat cron_validate again stopped)
  = fst (startHeartbeat cron_validate again initial) /\
  observe (snd (startHeartbeat cron_validate again stopped))
  = observe (snd (startHeartbeat cron_validate again initial)) /\
  stopHeartbeat s = s /\
  stopHeartbeat stopped = stopped.
Proof.
  intros s Hnone Hstart stopped.
  assert (Hs : timers s = []).
  { assert (Hc : consistent s) by (apply run_consistent; reflexivity).
    unfold consistent in Hc. by rewrite Hnone in Hc. }
  pose proof (start_from_idle arg s Hnone Hs) as Hidle.
  destruct (cron_validate (cron_expression arg)) as [message|];
    [congruence|].
  destruct Hidle as (s' & Hs' & Hhandle & Htimers).
  assert (s' = started) as -> by congruence.
  destruct (stop_running started _ _ Hhandle Htimers) as [Hnone' Hnil'].
  fold stopped in Hnone', Hnil'.
  assert (Hobs : observe stopped = observe initial).
  { unfold observe. by rewrite Hnone', Hnil'. }
  split; [by rewrite Hhandle|]. split; [done|].
  split; [by rewrite Hnil', Hs|]. split; [done|].
  pose proof (start_from_idle again stopped Hnone' Hnil') as Hagain.
  pose proof (start_from_idle again initial eq_refl eq_refl) as Hinit.
  destruct (cron_validate (cron_expression again)) as [message|].
  - rewrite Hagain, Hinit. simpl. repeat split; try done.
    + by apply stop_idle.
    + by apply stop_idle.
  - destruct Hagain as (s1 & -> & Hh1 & Ht1).
    destruct Hinit as (s2 & -> & Hh2 & Ht2). simpl.
    split; [done|]. split.
    + unfold observe. by rewrite Hh1, Ht1, Hh2, Ht2.
    + split; by apply stop_idle.
Qed.

End HeartbeatProperties.

Lemma startHeartbeat_while_running_is_noop_witness :
  let s := snd (Heartbeat.startHeartbeat Heartbeat.accept_all
                  (Some (Heartbeat.Int 30)) Heartbeat.initial) in
  Heartbeat.heartbeatTask s = Some 0 /\
  Heartbeat.startHeartbeat Heartbeat.accept_all (Some (Heartbeat.Int 5)) s
  = (Returned tt, Heartbeat.say Warn "Heartbeat already running" s) /\
  Heartbeat.timers
    (snd (Heartbeat.startHeartbeat Heartbeat.accept_all
            (Some (Heartbeat.Int 5)) s))
  = [(0, Heartbeat.Int 30)].
Proof.
  intros s.
  assert (Ht : Heartbeat.heartbeatTask s = Some 0) by reflexivity.
  split; [exact Ht|].
  destruct (startHeartbeat_while_running_is_noop None Heartbeat.accept_all
              (Some (Heartbeat.Int 5)) s 0 [] Ht)
    as (Hrun & _ & Htimers & _).
  split; [exact Hrun|]. rewrite Htimers. reflexivity.
Defined.

Lemma start_stop_round_trip_witness :
  let s := Heartbeat.run None Heartbeat.accept_all
             [Heartbeat.Start None; Heartbeat.Fire 0 (Heartbeat.Response 200);
              Heartbeat.Stop] Heartbeat.initial in
  let started := snd (Heartbeat.startHeartbeat Heartbeat.accept_all
                        (Some (Heartbeat.Int 10)) s) in
  let stopped := Heartbeat.stopHeartbeat started in
  Heartbeat.heartbeatTask s = None /\
  Heartbeat.startHeartbeat Heartbeat.accept_all (Some (Heartbeat.Int 10)) s
  = (Returned tt, started) /\
  Heartbeat.heartbeatTask started = Some 1 /\
  Heartbeat.heartbeatTask stopped = None /\
  Heartbeat.timers stopped = [] /\
  Heartbeat.observe
    (snd (Heartbeat.startHeartbeat Heartbeat.accept_all None stopped))
  = (true, [Heartbeat.Int 30]).
Proof.
  intros s started stopped.
  assert (Hnone : Heartbeat.heartbeatTask s = None) by reflexivity.
  assert (Hstart : Heartbeat.startHeartbeat Heartbeat.accept_all
                     (Some (Heartbeat.Int 10)) s = (Returned tt, started))
    by reflexivity.
  split; [exact Hnone|]. split; [exact Hstart|].
  destruct (start_stop_round_trip None Heartbeat.accept_all
              [Heartbeat.Start None;
               Heartbeat.Fire 0 (Heartbeat.Response 200); Heartbeat.Stop]
              (Some (Heartbeat.Int 10)) None started Hnone Hstart)
    as (_ & Hnone' & Htimers & _ & _ & Hobs & _).
  split; [reflexivity|]. split; [exact Hnone'|].
  split; [etrans; [exact Htimers|reflexivity]|].
  etrans; [exact Hobs|reflexivity].
Defined.

(** ** The id patterns of the adapters *)

Section PatternProperties.

Lemma append_assoc (a b c : string) : (a +:+ b) +:+ c = a +:+ b +:+ c.
Proof.
  induction a as [|x a IH]; [done|].
  rewrite !append_cons. by rewrite IH.
Qed.

Lemma append_nil_r (a : string) : a +:+ "" = a.
Proof.
  induction a as [|x a IH]; [done|]. rewrite append_cons. by rewrite IH.
Qed.

Lemma length_append (a b : string) :
  String.length (a +:+ b) = String.length a + String.length b.
Proof.
  induction a as [|x a IH]; [done|]. rewrite append_cons. simpl. by rewrite IH.
Qed.

Lemma length_fold_string (a : string) :
  String.length (fold_string a) = String.length a.
Proof. induction a as [|x a IH]; [done|]. simpl. by rewrite IH. Qed.

Lemma literal_ok_length (ignore_case : bool) (lit lit' : string) :
  literal_ok ignore_case lit lit' -> String.length lit' = String.length lit.
Proof.
  unfold literal_ok. destruct ignore_case; [|by intros ->].
  intros Hfold. rewrite <- (length_fold_string lit'), Hfold.
  apply length_fold_string.
Qed.

(** Two ways of cutting one string: one cut is inside the other's first
    part. *)
Lemma append_eq_split (x y u v : string) :
  x +:+ y = u +:+ v ->
  (exists k, u = x +:+ k /\ y = k +:+ v) \/
  (exists k, x = u +:+ k /\ v = k +:+ y).
Proof.
  revert u. induction x as [|c x IH]; intros u.
  - rewrite append_nil_l. intros ->. left. by exists u.
  - destruct u as [|d u].
    + rewrite append_nil_l. intros <-. right. by exists (String c x).
    + rewrite !append_cons. intros [= <- Heq].
      destruct (IH u Heq) as [(k & -> & ->)|(k & -> & ->)].
      * left. by exists k.
      * right. by exists k.
Qed.

Lemma take_class_all (cls : ascii -> bool) (s : string) :
  all_chars cls (take_class cls s) = true.
Proof.
  induction s as [|c s IH]; [done|]. simpl.
  destruct (cls c) eqn:Hc; [|done]. simpl. by rewrite Hc, IH.
Qed.

Lemma take_class_rest (cls : ascii -> bool) (s : string) :
  exists rest, s = take_class cls s +:+ rest /\ starts_with cls rest = false.
Proof.
  induction s as [|c s IH]; [by exists ""|]. simpl.
  destruct (cls c) eqn:Hc.
  - destruct IH as (rest & Hs & Hrest). exists rest.
    rewrite append_cons. by rewrite <- Hs.
  - by exists (String c s).
Qed.

Lemma take_class_exact (cls : ascii -> bool) (cap rest : string) :
  all_chars cls cap = true -> starts_with cls rest = false ->
  take_class cls (cap +:+ rest) = cap.
Proof.
  induction cap as [|c cap IH]; intros Hall Hrest.
  - rewrite append_nil_l. destruct rest as [|d rest]; [done|].
    simpl in *. by rewrite Hrest.
  - rewrite append_cons. simpl in *.
    apply andb_prop in Hall as [-> Hall]. by rewrite IH.
Qed.

(** What an anchored match captures. *)
Lemma match_here_Some (ignore_case : bool) (lit : string)
    (cls : ascii -> bool) (s cap : string) :
  match_here ignore_case lit cls s = Some cap <->
  exists lit' rest,
    s = lit' +:+ cap +:+ rest /\ literal_ok ignore_case lit lit' /\
    cap <> "" /\ all_chars cls cap = true /\ starts_with cls rest = false.
Proof.
  unfold match_here. split.
  - destruct (strip_literal ignore_case lit s) as [after|] eqn:Hstrip; [|done].
    apply strip_literal_spec in Hstrip as (lit' & -> & Hlit).
    destruct (take_class_rest cls after) as (rest & Hafter & Hrest).
    pose proof (take_class_all cls after) as Hall.
    destruct (take_class cls after) as [|c cap'] eqn:Htake; [done|].
    intros [= <-]. exists lit', rest. by rewrite <- Hafter.
  - intros (lit' & rest & -> & Hlit & Hne & Hall & Hrest).
    assert (strip_literal ignore_case lit (lit' +:+ cap +:+ rest)
            = Some (cap +:+ rest)) as ->.
    { apply strip_literal_spec. by exists lit'. }
    rewrite take_class_exact by done. by destruct cap.
Qed.

(** [search] returns the capture of the leftmost position that matches. *)
Lemma search_leftmost (m : string -> option string) (s cap : string) :
  search m s = Some cap <->
  exists pre suf,
    s = pre +:+ suf /\ m suf = Some cap /\
    forall a b, pre = a +:+ b -> b <> "" -> m (b +:+ suf) = None.
Proof.
  split.
  - induction s as [|c s IH]; simpl.
    + destruct (m "") eqn:Hm; [|done]. intros [= <-].
      exists "", "". repeat split; [done|].
      intros [|x a] [|y b]; done.
    + destruct (m (String c s)) eqn:Hm.
      * intros [= <-]. exists "", (String c s). repeat split; [done|].
        intros [|x a] [|y b]; done.
      * intros Hs. destruct (IH Hs) as (pre & suf & -> & Hsuf & Hleft).
        exists (String c pre), suf. repeat split; [done|].
        intros [|x a] b.
        -- rewrite append_nil_l. intros <- _. by rewrite append_cons.
        -- rewrite append_cons. intros [= <- ->]. by apply (Hleft a).
  - intros (pre & suf & -> & Hsuf & Hleft).
    induction pre as [|c pre IH].
    + rewrite append_nil_l. destruct suf; simpl; by rewrite Hsuf.
    + rewrite append_cons. simpl. rewrite <- append_cons.
      rewrite (Hleft "" (String c pre)) by done.
      apply IH. intros a b -> Hb. apply (Hleft (String c a)); [|done].
      by rewrite append_cons.
Qed.

(** A match that starts inside [pre] ends inside [pre +:+ lit']: the
    literal and the first character of the class take one place more than
    the literal. *)
Lemma earlier_match_inside (ignore_case : bool) (lit : string)
    (cls : ascii -> bool) (pre lit' tail : string) :
  literal_ok ignore_case lit lit' ->
  (exists a b, pre = a +:+ b /\ b <> "" /\
     match_here ignore_case lit cls (b +:+ lit' +:+ tail) <> None) <->
  has_match ignore_case lit cls (pre +:+ lit').
Proof.
  intros Hlit. pose proof (literal_ok_length _ _ _ Hlit) as Hlen. split.
  - intros (a & b & -> & Hb & Hm). apply match_here_spec in Hm.
    destruct Hm as (lit2 & c & rest & Heq & Hc & Hlit2).
    fold (literal_ok ignore_case lit lit2) in Hlit2.
    pose proof (literal_ok_length _ _ _ Hlit2) as Hlen2.
    rewrite <- append_assoc in Heq.
    change (String c rest) with ("" +:+ String c rest) in Heq.
    change ("" +:+ String c rest) with (String c "" +:+ rest) in Heq.
    rewrite <- (append_assoc lit2) in Heq.
    apply append_eq_split in Heq as [(k & Hk & _)|(k & Hk & _)].
    + assert (k = "") as ->.
      { apply (f_equal String.length) in Hk.
        rewrite !length_append in Hk. simpl in Hk.
        destruct b; [done|]. destruct k; [done|]. simpl in Hk. lia. }
      rewrite append_nil_r in Hk.
      exists a, lit2, c, "". split; [|done].
      by rewrite append_assoc, <- Hk.
    + exists a, lit2, c, k. split; [|done].
      rewrite append_assoc, Hk.
      by rewrite (append_assoc lit2), append_cons, append_nil_l.
  - intros (a & lit2 & c & rest & Heq & Hlit2 & Hc).
    pose proof (literal_ok_length _ _ _ Hlit2) as Hlen2.
    apply append_eq_split in Heq as [(k & Hk & Hk')|(k & -> & Hk')].
    + apply (f_equal String.length) in Hk'.
      rewrite !length_append in Hk'. simpl in Hk'. lia.
    + exists a, k. split; [done|].
      assert (k <> "") as Hne.
      { intros ->. rewrite append_nil_l in Hk'.
        apply (f_equal String.length) in Hk'.
        rewrite !length_append in Hk'. simpl in Hk'. lia. }
      split; [done|]. apply match_here_spec.
      exists lit2, c, (rest +:+ tail). split; [|done].
      rewrite <- append_assoc, <- Hk'.
      by rewrite append_assoc, append_cons.
Qed.

(** A pattern of one literal and one class: what [search] captures. *)
Lemma single_pattern_spec (ignore_case : bool) (lit : string)
    (cls : ascii -> bool) (url cap : string) :
  search (match_here ignore_case lit cls) url = Some cap <->
  exists pre lit' rest,
    url = pre +:+ lit' +:+ cap +:+ rest /\
    literal_ok ignore_case lit lit' /\
    cap <> "" /\ all_chars cls cap = true /\ starts_with cls rest = false /\
    ~ has_match ignore_case lit cls (pre +:+ lit').
Proof.
  rewrite search_leftmost. split.
  - intros (pre & suf & -> & Hm & Hleft).
    apply match_here_Some in Hm as (lit' & rest & -> & Hlit & Hne & Hall & Hrest).
    exists pre, lit', rest. repeat split; try done.
    intros Hhas.
    apply (earlier_match_inside _ _ _ _ _ (cap +:+ rest) Hlit) in Hhas.
    destruct Hhas as (a & b & Hpre & Hb & Hm).
    by rewrite (Hleft a b Hpre Hb) in Hm.
  - intros (pre & lit' & rest & -> & Hlit & Hne & Hall & Hrest & Hno).
    exists pre, (lit' +:+ cap +:+ rest). split; [done|]. split.
    + apply match_here_Some. by exists lit', rest.
    + intros a b Hpre Hb.
      destruct (match_here ignore_case lit cls (b +:+ lit' +:+ cap +:+ rest))
        eqn:Hm; [|done].
      destruct Hno. apply (earlier_match_inside _ _ _ _ _ (cap +:+ rest) Hlit).
      exists a, b. split; [done|]. split; [done|]. by rewrite Hm.
Qed.

Lemma has_tweet_id_match (url : string) :
  has_tweet_id url <-> has_match false "status/" is_digit url.
Proof.
  split.
  - intros (pre & c & rest & -> & Hc). by exists pre, "status/", c, rest.
  - intros (pre & lit' & c & rest & -> & -> & Hc). by exists pre, c, rest.
Qed.

Lemma has_reddit_id_match (url : string) :
  has_reddit_id url <-> has_match true "comments/" is_alnum url.
Proof.
  split.
  - intros (pre & lit' & c & rest & -> & Hlit & Hc). by exists pre, lit', c, rest.
  - intros (pre & lit' & c & rest & -> & Hlit & Hc). by exists pre, lit', c, rest.
Qed.

Lemma capture_or_empty (found : option string) (id : string) :
  id <> "" ->
  match found with Some cap => cap | None => "" end = id <-> found = Some id.
Proof.
  intros Hne. destruct found as [cap|]; split; congruence.
Qed.

(** X1: the tweet id extracted from a URL is the run of digits right after the
    first [status/] that a digit follows. *)
Theorem extractTweetId_spec (url id : string) :
  id <> "" ->
  extractTweetId url = id <->
  exists pre rest,
    url = pre +:+ "status/" +:+ id +:+ rest /\
    all_chars is_digit id = true /\ starts_with is_digit rest = false /\
    ~ has_tweet_id (pre +:+ "status/").
Proof.
  intros Hne. unfold extractTweetId.
  rewrite capture_or_empty by done. rewrite single_pattern_spec. split.
  - intros (pre & lit' & rest & -> & -> & _ & Hall & Hrest & Hno).
    exists pre, rest. repeat split; try done. by rewrite has_tweet_id_match.
  - intros (pre & rest & -> & Hall & Hrest & Hno).
    exists pre, "status/", rest. repeat split; try done.
    by rewrite <- has_tweet_id_match.
Qed.

Lemma extractTweetId_spec_witness :
  let id := "1893" in
  id <> "" /\
  (extractTweetId "https://x.com/status/status/1893abc/status/7" = id <->
   exists pre rest,
     "https://x.com/status/status/1893abc/status/7"
     = pre +:+ "status/" +:+ id +:+ rest /\
     all_chars is_digit id = true /\ starts_with is_digit rest = false /\
     ~ has_tweet_id (pre +:+ "status/")).
Proof.
  intros id. assert (Hne : id <> "") by done.
  split; [exact Hne|].
  exact (extractTweetId_spec "https://x.com/status/status/1893abc/status/7"
           id Hne).
Defined.

(** X2: the Reddit id extracted from a URL is the run of letters and digits
    right after the first [comments/], in any case, that one of them
    follows. *)
Theorem extractRedditId_spec (url id : string) :
  id <> "" ->
  extractRedditId url = id <->
  exists pre lit rest,
    url = pre +:+ lit +:+ id +:+ rest /\
    fold_string lit = fold_string "comments/" /\
    all_chars is_alnum id = true /\ starts_with is_alnum rest = false /\
    ~ has_reddit_id (pre +:+ lit).
Proof.
  intros Hne. unfold extractRedditId.
  rewrite capture_or_empty by done. rewrite single_pattern_spec. split.
  - intros (pre & lit' & rest & -> & Hlit & _ & Hall & Hrest & Hno).
    exists pre, lit', rest.
    repeat split; first [done | by rewrite has_reddit_id_match].
  - intros (pre & lit' & rest & -> & Hlit & Hall & Hrest & Hno).
    exists pre, lit', rest.
    repeat split; first [done | by rewrite <- has_reddit_id_match].
Qed.

Lemma extractRedditId_spec_witness :
  let url := "https://www.reddit.com/r/rocq/Comments/1Abc2d/a_title/" in
  "1Abc2d" <> "" /\
  (extractRedditId url = "1Abc2d" <->
   exists pre lit rest,
     url = pre +:+ lit +:+ "1Abc2d" +:+ rest /\
     fold_string lit = fold_string "comments/" /\
     all_chars is_alnum "1Abc2d" = true /\
     starts_with is_alnum rest = false /\
     ~ has_reddit_id (pre +:+ lit)).
Proof.
  intros url. assert (Hne : "1Abc2d" <> "") by done.
  split; [exact Hne|].
  exact (extractRedditId_spec url "1Abc2d" Hne).
Defined.

Example extractTweetId_leftmost :
  extractTweetId "https://x.com/status/status/1893abc/status/7" = "1893".
Proof. reflexivity. Qed.

Example extractRedditId_any_case :
  extractRedditId "https://www.reddit.com/r/rocq/Comments/1Abc2d/a_title/"
  = "1Abc2d".
Proof. reflexivity. Qed.

(** X3: the Instagram shortcode extracted from a URL is a run of shortcode
    characters right after a [/p/] or a [/reel/], as long as can be. *)
Theorem extractIgShortcode_sound (url id : string) :
  id <> "" ->
  extractIgShortcode url = id ->
  exists pre lit rest,
    url = pre +:+ lit +:+ id +:+ rest /\
    (lit = "/p/" \/ lit = "/reel/") /\
    all_chars is_shortcode_char id = true /\
    starts_with is_shortcode_char rest = false.
Proof.
  intros Hne. unfold extractIgShortcode.
  rewrite capture_or_empty by done. intros Hsearch.
  apply search_Some in Hsearch as (pre & suf & -> & Hm).
  assert (match_here false "/p/" is_shortcode_char suf = Some id \/
          match_here false "/reel/" is_shortcode_char suf = Some id) as Halt.
  { unfold match_ig in Hm.
    destruct (match_here false "/p/" is_shortcode_char suf); [by left|by right]. }
  destruct Halt as [Hp|Hreel].
  - apply match_here_Some in Hp as (lit' & rest & -> & -> & _ & Hall & Hrest).
    exists pre, "/p/", rest. repeat split; try done. by left.
  - apply match_here_Some in Hreel as (lit' & rest & -> & -> & _ & Hall & Hrest).
    exists pre, "/reel/", rest. repeat split; try done. by right.
Qed.

Lemma extractIgShortcode_sound_witness :
  let url := "https://www.instagram.com/reel/Cx_9-aB/?igsh=1" in
  "Cx_9-aB" <> "" /\
  extractIgShortcode url = "Cx_9-aB" /\
  exists pre lit rest,
    url = pre +:+ lit +:+ "Cx_9-aB" +:+ rest /\
    (lit = "/p/" \/ lit = "/reel/") /\
    all_chars is_shortcode_char "Cx_9-aB" = true /\
    starts_with is_shortcode_char rest = false.
Proof.
  intros url. assert (Hne : "Cx_9-aB" <> "") by done.
  assert (Hid : extractIgShortcode url = "Cx_9-aB") by reflexivity.
  split; [exact Hne|]. split; [exact Hid|].
  exact (extractIgShortcode_sound url "Cx_9-aB" Hne Hid).
Defined.

(** X4: the Instagram shortcode is recovered from a URL that has it after
    [/p/] or [/reel/], when nothing before has a slash that a [p] or an [r]
    follows. *)
Theorem extractIgShortcode_recovers (pre lit id rest : string) :
  lit = "/p/" \/ lit = "/reel/" ->
  id <> "" -> all_chars is_shortcode_char id = true ->
  starts_with is_shortcode_char rest = false ->
  no_slash_p_or_r pre ->
  extractIgShortcode (pre +:+ lit +:+ id +:+ rest) = id.
Proof.
  intros Hlit Hne Hall Hrest Hpre. unfold extractIgShortcode.
  apply capture_or_empty; [done|]. apply search_leftmost.
  exists pre, (lit +:+ id +:+ rest). split; [done|]. split.
  - unfold match_ig. destruct Hlit as [->| ->].
    + assert (match_here false "/p/" is_shortcode_char
                ("/p/" +:+ id +:+ rest) = Some id) as ->; [|done].
      apply match_here_Some. by exists "/p/", rest.
    + assert (match_here false "/p/" is_shortcode_char
                ("/reel/" +:+ id +:+ rest) = None) as -> by reflexivity.
      apply match_here_Some. by exists "/reel/", rest.
  - intros a b -> Hb.
    destruct (match_ig (b +:+ lit +:+ id +:+ rest)) as [cap|] eqn:Hm; [|done].
    exfalso.
    assert (exists lit2 tail, b +:+ lit +:+ id +:+ rest = lit2 +:+ tail /\
              (lit2 = "/p" \/ lit2 = "/r")) as (lit2 & tail & Heq & Hlit2).
    { unfold match_ig in Hm.
      destruct (match_here false "/p/" is_shortcode_char
                  (b +:+ lit +:+ id +:+ rest)) as [cap1|] eqn:Hp.
      - apply match_here_Some in Hp as (l & r & Heq & -> & _).
        exists "/p", ("/" +:+ cap1 +:+ r). split; [by rewrite Heq|by left].
      - apply match_here_Some in Hm as (l & r & Heq & -> & _).
        exists "/r", ("eel/" +:+ cap +:+ r). split; [by rewrite Heq|by right]. }
    destruct b as [|x [|y b]]; [done| |].
    + rewrite append_cons, append_nil_l in Heq.
      destruct Hlit as [->| ->], Hlit2 as [->| ->]; discriminate Heq.
    + destruct (Hpre a b) as [Hp Hr].
      rewrite !append_cons in Heq.
      destruct Hlit2 as [->| ->]; injection Heq as -> -> _.
      * by apply Hp.
      * by apply Hr.
Qed.

Lemma extractIgShortcode_recovers_witness :
  ("/reel/" = "/p/" \/ "/reel/" = "/reel/") /\
  "Cx_9-aB" <> "" /\
  all_chars is_shortcode_char "Cx_9-aB" = true /\
  starts_with is_shortcode_char "/?igsh=1" = false /\
  no_slash_p_or_r "https://www.instagram.com" /\
  extractIgShortcode
    ("https://www.instagram.com" +:+ "/reel/" +:+ "Cx_9-aB" +:+ "/?igsh=1")
  = "Cx_9-aB".
Proof.
  assert (Hlit : "/reel/" = "/p/" \/ "/reel/" = "/reel/") by (by right).
  assert (Hne : "Cx_9-aB" <> "") by done.
  assert (Hall : all_chars is_shortcode_char "Cx_9-aB" = true) by reflexivity.
  assert (Hrest : starts_with is_shortcode_char "/?igsh=1" = false)
    by reflexivity.
  assert (Hpre : no_slash_p_or_r "https://www.instagram.com").
  { intros a b. split; intros Heq.
    - do 25 (destruct a as [|? a]; [discriminate Heq|injection Heq as _ Heq]).
      destruct a; discriminate Heq.
    - do 25 (destruct a as [|? a]; [discriminate Heq|injection Heq as _ Heq]).
      destruct a; discriminate Heq. }
  split; [exact Hlit|]. split; [exact Hne|]. split; [exact Hall|].
  split; [exact Hrest|]. split; [exact Hpre|].
  exact (extractIgShortcode_recovers "https://www.instagram.com" "/reel/"
           "Cx_9-aB" "/?igsh=1" Hlit Hne Hall Hrest Hpre).
Defined.

End PatternProperties.

(** ** The bridge router, further *)

Section RouterProperties.

Ltac step_monad :=
  unfold mbind, M_bind, mret, M_ret, try_catch, log, record_call, throw,
    uuidv4; simpl.

(** X5: for a body of the declared shape, whatever the registry holds and
    whether the adapter returns or throws, both handlers answer: every
    throw of the adapter call is caught, and the status is 200, 400 or
    500. *)
Theorem router_always_answers (registry : list (string * agent)) :
  (forall req w, exists r w',
      post_api_execute registry req w = (Returned r, w') /\
      http_status r ∈ [200; 400; 500]%Z) /\
  (forall req w, exists r w',
      post_api_metrics registry req w = (Returned r, w') /\
      http_status r ∈ [200; 400; 500]%Z).
Proof.
  split; intros req w.
  - unfold post_api_execute.
    destruct (get_property registry (req_platform req)) as [[a|]|];
      unfold call_execute; step_monad.
    + match goal with
      | |- context [execute a ?p ?w1] =>
          destruct (execute a p w1) as [[result|message] w2]
      end.
      * destruct (assoc "id" result) as [[|c id]|];
          eexists _, _; (split; [reflexivity|]); simpl;
          rewrite !elem_of_cons; auto.
      * eexists _, _. split; [reflexivity|]. simpl.
        rewrite !elem_of_cons; auto.
    + eexists _, _. split; [reflexivity|]. simpl.
      rewrite !elem_of_cons; auto.
    + eexists _, _. split; [reflexivity|]. simpl.
      rewrite !elem_of_cons; auto.
  - unfold post_api_metrics.
    destruct (get_property registry (mreq_platform req)) as [[a|]|];
      unfold call_collectMetrics; step_monad.
    + match goal with
      | |- context [collectMetrics a ?p ?w1] =>
          destruct (collectMetrics a p w1) as [[ms|message] w2]
      end; eexists _, _; (split; [reflexivity|]); simpl;
        rewrite !elem_of_cons; auto.
    + eexists _, _. split; [reflexivity|]. simpl.
      rewrite !elem_of_cons; auto.
    + eexists _, _. split; [reflexivity|]. simpl.
      rewrite !elem_of_cons; auto.
Qed.

Lemma registered_iff (platform : string) :
  is_Some (assoc platform platformAgents) <->
  platform ∈ ["twitter"; "reddit"; "instagram"].
Proof.
  unfold platformAgents. simpl. rewrite !elem_of_cons, elem_of_nil.
  destruct (String.eqb_spec platform "twitter"); [by split; eauto|].
  destruct (String.eqb_spec platform "reddit"); [by split; eauto|].
  destruct (String.eqb_spec platform "instagram"); [by split; eauto|].
  split; [by intros [? ?]|]. intros [?|[?|[?|[]]]]; done.
Qed.

Lemma supported_iff (platform action : string) :
  is_Some (id_prefix platform action) <->
  platform ∈ ["twitter"; "reddit"; "instagram"] /\
  action ∈ ["comment"; "reply"; "repost"].
Proof.
  split.
  - intros [prefix Hp]. apply id_prefix_rows in Hp. revert Hp.
    rewrite !elem_of_cons, !elem_of_nil.
    intros H; repeat destruct H as [H|H]; try done;
      injection H as -> -> ->; tauto.
  - intros [Hk Ha]. by apply id_prefix_supported.
Qed.

(** X6: a request whose body has the declared shape succeeds exactly when
    its platform is one of the three registry keys and its action one of
    the three actions, both spelled exactly. *)
Theorem execute_succeeds_iff (req : ExecuteRequest) (w : world) :
  (exists r w', post_api_execute platformAgents req w = (Returned r, w') /\
                http_status r = 200%Z) <->
  req_platform req ∈ ["twitter"; "reddit"; "instagram"] /\
  req_action req ∈ ["comment"; "reply"; "repost"].
Proof.
  rewrite <- supported_iff. split.
  - intros (r & w' & Hrun & Hstatus).
    destruct (assoc (req_platform req) platformAgents) as [a|] eqn:Ha.
    + destruct (post_api_execute_own req w a Ha) as (w1 & _ & Hown).
      destruct (id_prefix _ _); [by eexists|].
      rewrite Hown in Hrun. injection Hrun as <- <-. done.
    + destruct (unregistered_platform_never_succeeds req w Ha)
        as (r1 & w1 & Hrun1 & _ & Hst & _).
      rewrite Hrun1 in Hrun. injection Hrun as <- <-. lia.
  - intros Hsup.
    assert (is_Some (assoc (req_platform req) platformAgents)) as [a Ha].
    { apply registered_iff. by apply supported_iff in Hsup as [? _]. }
    destruct (post_api_execute_own req w a Ha) as (w1 & _ & Hown).
    destruct Hsup as [prefix Hp]. rewrite Hp in Hown.
    destruct Hown as (result & Hown). by eexists _, _.
Qed.

Ltac by_cases params :=
  destruct params as [act url txt parent meta]; unfold id_prefix; simpl;
  destruct (String.eqb_spec act "comment") as [->|?];
  [|destruct (String.eqb_spec act "reply") as [->|?];
    [|destruct (String.eqb_spec act "repost") as [->|?]]];
  simpl; intros [= ?]; subst; eexists _, _;
  (split; [reflexivity|]); simpl; repeat split; done.

Lemma registry_result_spec key a :
  assoc key platformAgents = Some a -> result_spec key a.
Proof.
  revert key a. apply registry_cases; intros params w prefix.
  - unfold TwitterAgent, TwitterAgent_execute. by_cases params.
  - unfold RedditAgent, RedditAgent_execute. by_cases params.
  - unfold InstagramAgent, InstagramAgent_execute. by_cases params.
Qed.

(** X7: a success response reports the id the adapter put in its result (the
    [uuidv4] fallback is not reached), echoes the platform, the action and,
    inside the result, the content; a reply is addressed to the parent
    comment when one is given and not empty, to the post otherwise. *)
Theorem success_response_shape (req : ExecuteRequest) (w : world) :
  req_platform req ∈ ["twitter"; "reddit"; "instagram"] ->
  req_action req ∈ ["comment"; "reply"; "repost"] ->
  exists id result w',
    post_api_execute platformAgents req w
    = (Returned
         (mkResponse 200
            (JObj [("status", JStr "success");
                   ("platform_post_id", JStr id);
                   ("platform", JStr (req_platform req));
                   ("action", JStr (req_action req));
                   ("result", obj_to_json result)])), w') /\
    assoc "id" result = Some id /\
    assoc "content" result = Some (req_content req) /\
    assoc "status" result = Some "simulated" /\
    (req_action req = "reply" ->
     assoc "reply_to" result
     = Some (or_else (req_parent_comment_id req)
               (extractor (req_platform req) (req_post_url req)))) /\
    uuid_used w' = uuid_used w /\
    calls w' = calls w ++ [(req_platform req, "execute")].
Proof.
  intros Hk Hact.
  destruct (proj2 (registered_iff _) Hk) as [a Ha].
  destruct (proj2 (supported_iff _ _) (conj Hk Hact)) as [prefix Hp].
  unfold post_api_execute, get_property. rewrite Ha.
  unfold call_execute. step_monad.
  match goal with
  | |- context [execute a ?p ?w1] =>
      destruct (registry_result_spec _ _ Ha p w1 prefix Hp)
        as (r & w2 & -> & Hid & Hcontent & Hstatus & Hreply & _ & Huuid & _
            & Hcalls & _)
  end.
  simpl in *. rewrite Hid.
  assert (exists c rest, prefix +:+ pretty (clock w) = String c rest)
    as (c & rest & Hcons).
  { apply id_prefix_rows in Hp. revert Hp.
    rewrite !elem_of_cons, elem_of_nil.
    intros H; repeat destruct H as [H|H]; try done;
      injection H as _ _ ->; by eexists _, _. }
  rewrite Hcons. eexists _, r, _. split; [reflexivity|]. simpl.
  by rewrite <- Hcons.
Qed.

Lemma success_response_shape_witness :
  let req := mkExecuteRequest "reply" "instagram"
               "https://www.instagram.com/stories/none" "thanks"
               (Some "") None in
  req_platform req ∈ ["twitter"; "reddit"; "instagram"] /\
  req_action req ∈ ["comment"; "reply"; "repost"] /\
  exists id result w',
    post_api_execute platformAgents req (world_half 1700000000000)
    = (Returned
         (mkResponse 200
            (JObj [("status", JStr "success");
                   ("platform_post_id", JStr id);
                   ("platform", JStr "instagram");
                   ("action", JStr "reply");
                   ("result", obj_to_json result)])), w') /\
    assoc "id" result = Some id /\
    assoc "reply_to" result = Some "".
Proof.
  intros req.
  assert (Hk : req_platform req ∈ ["twitter"; "reddit"; "instagram"]).
  { rewrite !elem_of_cons. right; right; left. reflexivity. }
  assert (Hact : req_action req ∈ ["comment"; "reply"; "repost"]).
  { rewrite !elem_of_cons. right; left. reflexivity. }
  split; [exact Hk|]. split; [exact Hact|].
  destruct (success_response_shape req (world_half 1700000000000) Hk Hact)
    as (id & result & w' & Hrun & Hid & _ & _ & Hreply & _).
  exists id, result, w'. split; [exact Hrun|]. split; [exact Hid|].
  exact (Hreply eq_refl).
Defined.

(** [map] with a callback that returns and keeps an invariant of the
    world. *)
Lemma mapM_returns_inv {A B : Type} (P : A -> B -> Prop) (I : world -> Prop)
    (f : A -> M B) (l : list A) (w : world) :
  I w ->
  (forall x w, I w -> exists y w', f x w = (Returned y, w') /\ P x y /\ I w') ->
  exists ys w', mapM f l w = (Returned ys, w') /\ Forall2 P l ys /\ I w'.
Proof.
  intros Hw Hf. revert w Hw. induction l as [|x l IH]; intros w Hw.
  - exists [], w. split; [reflexivity|]. split; [constructor|done].
  - destruct (Hf x w Hw) as (y & w1 & Hy & HP & Hw1).
    destruct (IH w1 Hw1) as (ys & w2 & Hys & HPs & Hw2).
    exists (y :: ys), w2. split; [|split; [by constructor|done]].
    simpl. unfold mbind, M_bind at 1. rewrite Hy.
    unfold mbind, M_bind at 1. fold (@mapM M _ _ A B f).
    rewrite Hys. reflexivity.
Qed.

Ltac in_ranges Hfair Hrf :=
  simpl; rewrite !Hrf;
  repeat match goal with |- _ /\ _ => split end;
  first [ done
        | apply Hfair; lia
        | match goal with
          | |- within _ _ (random_floor ?w ?n ?k - _) =>
              let Hd := fresh in
              assert (Hd : within 0 k (random_floor w n k))
                by (apply Hfair; lia);
              unfold within in *; lia
          end ].

Ltac ranges_by_map P w postIds Hfair :=
  unfold mbind at 1, M_bind at 1; simpl;
  match goal with
  | |- context [mapM ?f postIds ?w1] =>
      destruct (mapM_returns_inv P
                  (fun wi : world =>
                     random_floor wi = random_floor w /\ calls wi = calls w)
                  f postIds w1)
        as (ms & w' & Hms & Hall & _ & Hcalls)
  end;
  [ by split
  | intros id wi [Hrf Hc]; eexists _, _; (split; [reflexivity|]);
    (split; [|by split]); (split; [done|])
  | eexists _, _; split; [eassumption|]; split; assumption ].

Lemma TwitterAgent_ranges (w : world) (postIds : list string) :
  fair_random w ->
  exists ms w', TwitterAgent_collectMetrics postIds w = (Returned ms, w') /\
    Forall2 (fun id m => post_id m = id /\ twitter_ranges m) postIds ms /\
    calls w' = calls w.
Proof.
  intros Hfair. unfold TwitterAgent_collectMetrics.
  ranges_by_map (fun (id : string) m => post_id m = id /\ twitter_ranges m)
                w postIds Hfair.
  unfold twitter_ranges. in_ranges Hfair Hrf.
Qed.

Lemma RedditAgent_ranges (w : world) (postIds : list string) :
  fair_random w ->
  exists ms w', RedditAgent_collectMetrics postIds w = (Returned ms, w') /\
    Forall2 (fun id m => post_id m = id /\ reddit_ranges m) postIds ms /\
    calls w' = calls w.
Proof.
  intros Hfair. unfold RedditAgent_collectMetrics.
  ranges_by_map (fun (id : string) m => post_id m = id /\ reddit_ranges m)
                w postIds Hfair.
  unfold reddit_ranges. in_ranges Hfair Hrf.
Qed.

Lemma InstagramAgent_ranges (w : world) (postIds : list string) :
  fair_random w ->
  exists ms w', InstagramAgent_collectMetrics postIds w = (Returned ms, w') /\
    Forall2 (fun id m => post_id m = id /\ instagram_ranges m) postIds ms /\
    calls w' = calls w.
Proof.
  intros Hfair. unfold InstagramAgent_collectMetrics.
  ranges_by_map (fun (id : string) m => post_id m = id /\ instagram_ranges m)
                w postIds Hfair.
  unfold instagram_ranges. in_ranges Hfair Hrf.
Qed.

(** X9: with a [Math.random] in [0, 1), every counter an adapter returns lies
    in the adapter's range: no counter is negative except the follower
    delta, which is at least -2 on Twitter and -3 on Instagram; Reddit's
    clicks and follower delta are always zero. *)
Theorem collectMetrics_within_ranges (w : world) (postIds : list string) :
  fair_random w ->
  (exists ms w', collectMetrics TwitterAgent postIds w = (Returned ms, w') /\
     Forall twitter_ranges ms) /\
  (exists ms w', collectMetrics RedditAgent postIds w = (Returned ms, w') /\
     Forall reddit_ranges ms) /\
  (exists ms w', collectMetrics InstagramAgent postIds w = (Returned ms, w') /\
     Forall instagram_ranges ms).
Proof.
  intros Hfair.
  assert (Hforall : forall (P : metrics -> Prop) ms,
             Forall2 (fun (id : string) m => post_id m = id /\ P m) postIds ms ->
             Forall P ms).
  { intros P ms Hall. induction Hall as [|id m ids ms [_ HP] _ IH];
      by constructor. }
  split; [|split].
  - destruct (TwitterAgent_ranges w postIds Hfair) as (ms & w' & Hms & Hall & _).
    exists ms, w'. split; [done|]. by apply Hforall.
  - destruct (RedditAgent_ranges w postIds Hfair) as (ms & w' & Hms & Hall & _).
    exists ms, w'. split; [done|]. by apply Hforall.
  - destruct (InstagramAgent_ranges w postIds Hfair)
      as (ms & w' & Hms & Hall & _).
    exists ms, w'. split; [done|]. by apply Hforall.
Qed.

Lemma collectMetrics_within_ranges_witness :
  fair_random (world_half 1700000000000) /\
  exists ms w',
    collectMetrics InstagramAgent ["Cx_9-aB"; ""] (world_half 1700000000000)
    = (Returned ms, w') /\
    Forall instagram_ranges ms.
Proof.
  assert (Hfair : fair_random (world_half 1700000000000)).
  { intros i k Hk. unfold within, world_half. simpl.
    split; [apply Z.div_pos; lia|apply Z.div_lt; lia]. }
  split; [exact Hfair|].
  exact (proj2 (proj2 (collectMetrics_within_ranges
                         (world_half 1700000000000) ["Cx_9-aB"; ""] Hfair))).
Defined.

Lemma collectMetrics_keeps_calls key a :
  assoc key platformAgents = Some a ->
  forall postIds w,
    exists ms w',
      collectMetrics a postIds w = (Returned ms, w') /\
      Forall2 (fun id m => post_id m = id) postIds ms /\
      calls w' = calls w.
Proof.
  revert key a.
  apply (registry_cases (fun _ a => forall postIds w, exists ms w',
           collectMetrics a postIds w = (Returned ms, w') /\
           Forall2 (fun id m => post_id m = id) postIds ms /\
           calls w' = calls w));
    intros postIds w; simpl;
    unfold TwitterAgent_collectMetrics, RedditAgent_collectMetrics,
      InstagramAgent_collectMetrics;
    unfold mbind at 1, M_bind at 1; simpl;
    match goal with
    | |- context [mapM ?f postIds ?w1] =>
        apply (mapM_returns_inv (fun (id : string) m => post_id m = id)
                 (fun wi : world => calls wi = calls w) f postIds w1)
    end; try done;
    intros id wi Hc; eexists _, _; (split; [reflexivity|]); by split.
Qed.

(** X8: for a registered platform the metrics endpoint answers 200 with one
    entry per post id, in the order of the batch and each under its id (an
    empty batch gives an empty array), after one call of the adapter. *)
Theorem metrics_endpoint_answers_batch (req : MetricsRequest) (w : world) :
  mreq_platform req ∈ ["twitter"; "reddit"; "instagram"] ->
  exists ms w',
    post_api_metrics platformAgents req w
    = (Returned
         (mkResponse 200
            (JObj [("metrics", JArr (map metrics_to_json ms));
                   ("platform", JStr (mreq_platform req))])), w') /\
    map post_id ms = mreq_post_ids req /\
    length (map metrics_to_json ms) = length (mreq_post_ids req) /\
    calls w' = calls w ++ [(mreq_platform req, "collectMetrics")].
Proof.
  intros Hk. destruct (proj2 (registered_iff _) Hk) as [a Ha].
  unfold post_api_metrics, get_property. rewrite Ha.
  unfold call_collectMetrics. step_monad.
  match goal with
  | |- context [collectMetrics a ?p ?w1] =>
      destruct (collectMetrics_keeps_calls _ _ Ha p w1)
        as (ms & w2 & -> & Hall & Hcalls)
  end.
  simpl in Hcalls. exists ms, w2. split; [reflexivity|].
  assert (Hids : map post_id ms = mreq_post_ids req).
  { clear -Hall. induction Hall as [|id m ids ms Hid _ IH]; [done|].
    simpl. by rewrite Hid, IH. }
  split; [done|]. split; [|done].
  by rewrite length_map, <- Hids, length_map.
Qed.

Lemma metrics_endpoint_answers_batch_witness :
  mreq_platform reddit_batch ∈ ["twitter"; "reddit"; "instagram"] /\
  exists ms w',
    post_api_metrics platformAgents reddit_batch (world_half 1700000000000)
    = (Returned
         (mkResponse 200
            (JObj [("metrics", JArr (map metrics_to_json ms));
                   ("platform", JStr "reddit")])), w') /\
    map post_id ms = ["1abc2d"; ""; "not an id"].
Proof.
  assert (Hk : mreq_platform reddit_batch ∈ ["twitter"; "reddit"; "instagram"]).
  { rewrite !elem_of_cons. right; left. reflexivity. }
  split; [exact Hk|].
  destruct (metrics_endpoint_answers_batch reddit_batch
              (world_half 1700000000000) Hk)
    as (ms & w' & Hrun & Hids & _).
  exists ms, w'. split; [exact Hrun|exact Hids].
Defined.

End RouterProperties.

(** ** The heartbeat daemon, further *)

Section DaemonProperties.

Import Heartbeat.

Variable ORCHESTRATOR_URL : option string.
Variable cron_validate : string -> option string.

Lemma startHeartbeat_sends_nothing (arg : option number) (s : state) :
  requests (snd (startHeartbeat cron_validate arg s)) = requests s.
Proof.
  unfold startHeartbeat, cron_schedule.
  destruct (heartbeatTask s); [done|]. by destruct (cron_validate _).
Qed.

Lemma stopHeartbeat_sends_nothing (s : state) :
  requests (stopHeartbeat s) = requests s.
Proof. unfold stopHeartbeat. by destruct (heartbeatTask s). Qed.

Lemma tick_sends_one (n : number) (answer : fetch_result) (s : state) :
  requests (tick ORCHESTRATOR_URL n answer s)
  = requests s ++ [health_check ORCHESTRATOR_URL].
Proof.
  unfold tick, notifyOrchestrator.
  destruct answer as [status|message]; [destruct (ok status)|]; done.
Qed.

Lemma run_cons (o : op) (ops : list op) (s : state) :
  run ORCHESTRATOR_URL cron_validate (o :: ops) s
  = run ORCHESTRATOR_URL cron_validate ops
      (run_op ORCHESTRATOR_URL cron_validate o s).
Proof. reflexivity. Qed.

(** X10: from any state on, the daemon sends nothing but GETs of the
    orchestrator's health endpoint, at most one per firing of a timer;
    starting and stopping send nothing. *)
Theorem daemon_only_checks_health (ops : list op) (s : state) :
  exists n,
    requests (run ORCHESTRATOR_URL cron_validate ops s)
    = requests s ++ replicate n (health_check ORCHESTRATOR_URL) /\
    n <= fires ops.
Proof.
  revert s. induction ops as [|o ops IH]; intros s.
  - exists 0. simpl. by rewrite app_nil_r.
  - rewrite run_cons.
    destruct (IH (run_op ORCHESTRATOR_URL cron_validate o s)) as (n & Hn & Hle).
    rewrite Hn. destruct o as [arg| |t answer]; simpl.
    + exists n. by rewrite startHeartbeat_sends_nothing.
    + exists n. by rewrite stopHeartbeat_sends_nothing.
    + destruct (assoc_nat t (timers s)) as [m|].
      * exists (S n). rewrite tick_sends_one, <- app_assoc. split; [done|lia].
      * exists n. split; [done|lia].
Qed.

Lemma tick_in_two_turns (n : number) (answer : fetch_result) (s : state) :
  tick ORCHESTRATOR_URL n answer s
  = tick_end answer (tick_begin ORCHESTRATOR_URL n s).
Proof.
  unfold tick, notifyOrchestrator, tick_end, tick_begin, outcome_line.
  destruct answer as [status|message]; [destruct (ok status)|]; reflexivity.
Qed.

Lemma take_turn_consistent (e : turn) (p : process) :
  consistent (daemon p) ->
  consistent (daemon (take_turn ORCHESTRATOR_URL cron_validate e p)).
Proof.
  destruct e as [arg| |t|answer]; simpl.
  - apply startHeartbeat_consistent.
  - apply stopHeartbeat_consistent.
  - by destruct (assoc_nat t (timers (daemon p))).
  - by destruct (awaiting p).
Qed.

Lemma play_consistent (turns : list turn) (p : process) :
  consistent (daemon p) ->
  consistent (daemon (play ORCHESTRATOR_URL cron_validate turns p)).
Proof.
  revert p. induction turns as [|e turns IH]; intros p Hp; [done|].
  apply IH. by apply take_turn_consistent.
Qed.

Lemma play_cons (e : turn) (turns : list turn) (p : process) :
  play ORCHESTRATOR_URL cron_validate (e :: turns) p
  = play ORCHESTRATOR_URL cron_validate turns
      (take_turn ORCHESTRATOR_URL cron_validate e p).
Proof. reflexivity. Qed.

(** X11: once stopped, and until it is started again, the daemon sends no
    request, runs no timer and sets no handle, whatever timer is said to
    fire and however often [stopHeartbeat] is called; the only lines
    logged are the outcomes of ticks that were waiting for their answer
    when the daemon was stopped, one for each answer that comes in. *)
Theorem stopped_daemon_sends_nothing (before later : list turn) :
  not_started later = true ->
  let p := take_turn ORCHESTRATOR_URL cron_validate Stopped
             (play ORCHESTRATOR_URL cron_validate before idle_process) in
  let p' := play ORCHESTRATOR_URL cron_validate later p in
  requests (daemon p') = requests (daemon p) /\
  timers (daemon p') = [] /\ heartbeatTask (daemon p') = None /\
  exists answers,
    lines (daemon p') = lines (daemon p) ++ map outcome_line answers /\
    length answers + awaiting p' = awaiting p.
Proof.
  intros Hlater p.
  assert (Hidle : heartbeatTask (daemon p) = None /\ timers (daemon p) = []).
  { assert (Hc : consistent
                   (daemon (play ORCHESTRATOR_URL cron_validate before
                              idle_process)))
      by (apply play_consistent; reflexivity).
    unfold p, consistent in *. simpl.
    destruct (heartbeatTask (daemon (play _ _ before idle_process)))
      as [t|] eqn:Ht.
    - destruct Hc as [m Hm]. by apply (stop_running _ t m).
    - rewrite stop_idle by done. by rewrite Ht. }
  clearbody p. revert p Hidle.
  induction later as [|e later IH]; intros p [Hnone Hnil].
  { simpl. repeat split; [done..|]. exists []. simpl.
    by rewrite app_nil_r. }
  destruct e as [arg| |t|answer]; [done|..]; simpl in Hlater;
    rewrite play_cons; simpl.
  - rewrite stop_idle by done. destruct p as [s k]. by apply IH.
  - simpl in Hnil. rewrite Hnil. simpl. by apply IH.
  - destruct (awaiting p) as [|k] eqn:Hk.
    + rewrite <- Hk. by apply IH.
    + destruct (IH Hlater (mkProcess (tick_end answer (daemon p)) k))
        as (Hreq & Htimers & Hhandle & answers & Hlines & Hcount);
        [done|].
      repeat split; [done..|].
      exists (answer :: answers). split.
      * rewrite Hlines. unfold tick_end, say. simpl.
        destruct (outcome_line answer) as [lv line]. simpl.
        by rewrite <- app_assoc.
      * simpl in *. lia.
Qed.

(** X12: when node-cron rejects the expression, [startHeartbeat] throws its
    error and changes nothing: no handle is set, no timer runs and the
    start is not logged. *)
Theorem rejected_schedule_changes_nothing (ops : list op)
    (arg : option number) (message : string) :
  let s := run ORCHESTRATOR_URL cron_validate ops initial in
  heartbeatTask s = None ->
  cron_validate (cron_expression arg) = Some message ->
  startHeartbeat cron_validate arg s = (Threw message, s).
Proof.
  intros s Hnone Hreject.
  assert (Hnil : timers s = []).
  { assert (Hc : consistent s) by (apply run_consistent; reflexivity).
    unfold consistent in Hc. by rewrite Hnone in Hc. }
  pose proof (start_from_idle cron_validate arg s Hnone Hnil) as Hidle.
  by rewrite Hreject in Hidle.
Qed.

End DaemonProperties.

Lemma stopped_daemon_sends_nothing_witness :
  let before := [Heartbeat.Started None; Heartbeat.Fired 0] in
  let later := [Heartbeat.Fired 0;
                Heartbeat.Answered (Heartbeat.Response 200);
                Heartbeat.Stopped;
                Heartbeat.Answered (Heartbeat.Unreachable "down")] in
  let p := Heartbeat.take_turn None Heartbeat.accept_all Heartbeat.Stopped
             (Heartbeat.play None Heartbeat.accept_all before
                Heartbeat.idle_process) in
  Heartbeat.not_started later = true /\
  Heartbeat.requests
    (Heartbeat.daemon (Heartbeat.play None Heartbeat.accept_all later p))
  = [Heartbeat.health_check None].
Proof.
  intros before later p.
  assert (Hlater : Heartbeat.not_started later = true) by reflexivity.
  split; [exact Hlater|].
  destruct (stopped_daemon_sends_nothing None Heartbeat.accept_all before
              later Hlater) as (Hreq & _).
  etrans; [exact Hreq|reflexivity].
Defined.

(** A tick that waits for its answer when the daemon is stopped still logs
    its outcome afterwards, and sends nothing more. *)
Example answer_after_stop_is_logged :
  let p := Heartbeat.play None Heartbeat.accept_all
             [Heartbeat.Started None; Heartbeat.Fired 0; Heartbeat.Stopped]
             Heartbeat.idle_process in
  let p' := Heartbeat.take_turn None Heartbeat.accept_all
              (Heartbeat.Answered (Heartbeat.Response 503)) p in
  Heartbeat.lines (Heartbeat.daemon p')
  = Heartbeat.lines (Heartbeat.daemon p)
    ++ [(Warn, "Heartbeat: orchestrator returned 503")] /\
  Heartbeat.requests (Heartbeat.daemon p') = [Heartbeat.health_check None].
Proof. split; reflexivity. Qed.

Lemma rejected_schedule_changes_nothing_witness :
  let s := Heartbeat.run None Heartbeat.reject_nan
             [Heartbeat.Start (Some (Heartbeat.Int 5)); Heartbeat.Stop]
             Heartbeat.initial in
  Heartbeat.heartbeatTask s = None /\
  Heartbeat.reject_nan (Heartbeat.cron_expression (Some Heartbeat.NaN))
  = Some "invalid cron expression" /\
  Heartbeat.startHeartbeat Heartbeat.reject_nan (Some Heartbeat.NaN) s
  = (Threw "invalid cron expression", s).
Proof.
  intros s.
  assert (Hnone : Heartbeat.heartbeatTask s = None) by reflexivity.
  assert (Hreject : Heartbeat.reject_nan
                      (Heartbeat.cron_expression (Some Heartbeat.NaN))
                    = Some "invalid cron expression") by reflexivity.
  split; [exact Hnone|]. split; [exact Hreject|].
  exact (rejected_schedule_changes_nothing None Heartbeat.reject_nan
           [Heartbeat.Start (Some (Heartbeat.Int 5)); Heartbeat.Stop]
           (Some Heartbeat.NaN) "invalid cron expression" Hnone Hreject).
Defined.

(** ** The activity feed, further *)

Section MergeProperties.

Import Feed.

Context {item K : Type} `{Countable K}.
Variable id : item -> K.

Lemma ids_of_cons (a : item) (l : list item) :
  ids_of id (a :: l) = {[id a]} ∪ ids_of id l.
Proof. reflexivity. Qed.

Lemma elem_of_ids_of (k : K) (l : list item) :
  k ∈ ids_of id l <-> exists x, x ∈ l /\ id x = k.
Proof.
  unfold ids_of. rewrite elem_of_list_to_set, list_elem_of_fmap.
  split; intros (x & ? & ?); by exists x.
Qed.

(** Filtering two lists in a row: the second is filtered against the ids
    of the first as well. *)
Lemma filter_unseen_app (seen : gset K) (l1 l2 : list item) :
  filter_unseen id seen (l1 ++ l2)
  = filter_unseen id seen l1 ++ filter_unseen id (ids_of id l1 ∪ seen) l2.
Proof.
  revert seen. induction l1 as [|a l1 IH]; intros seen; simpl.
  - f_equal. unfold ids_of. simpl. by rewrite (left_id_L ∅ (∪)).
  - rewrite ids_of_cons. destruct (decide (id a ∈ seen)) as [Hin|Hout].
    + rewrite IH. do 2 f_equal. apply set_eq. intros k.
      rewrite !elem_of_union, elem_of_singleton. split; [tauto|].
      intros [[->|?]|?]; tauto.
    + simpl. rewrite IH. do 3 f_equal. apply set_eq. intros k.
      rewrite !elem_of_union, elem_of_singleton. tauto.
Qed.

(** A list whose ids are all seen is filtered away. *)
Lemma filter_unseen_all_seen (seen : gset K) (l : list item) :
  (forall x, x ∈ l -> id x ∈ seen) -> filter_unseen id seen l = [].
Proof.
  induction l as [|a l IH]; intros Hall; [done|]. simpl.
  rewrite decide_True by (apply Hall; left).
  apply IH. intros x Hx. apply Hall. by right.
Qed.

(** A duplicate-free list keeps the items whose ids are not seen. *)
Lemma filter_unseen_NoDup_filter (extra seen : gset K) (l : list item) :
  NoDup (id <$> l) -> (forall x, x ∈ l -> id x ∉ extra) ->
  filter_unseen id (extra ∪ seen) l = filter (fun x => id x ∉ seen) l.
Proof.
  revert extra. induction l as [|a l IH]; intros extra Hnd Hextra; [done|].
  rewrite fmap_cons in Hnd. apply NoDup_cons in Hnd as [Ha Hnd]. simpl.
  assert (id a ∉ extra) as Haextra by (apply Hextra; left).
  destruct (decide (id a ∈ seen)) as [Hin|Hout].
  - rewrite decide_True by (apply elem_of_union; by right).
    rewrite filter_cons_False by (simpl; tauto).
    apply IH; [done|]. intros x Hx. apply Hextra. by right.
  - rewrite decide_False by (rewrite elem_of_union; tauto).
    rewrite filter_cons_True by done. f_equal.
    rewrite (assoc_L (∪)). apply IH; [done|].
    intros x Hx. rewrite elem_of_union, elem_of_singleton.
    intros [Heq|Hin].
    + apply Ha. rewrite <- Heq. apply list_elem_of_fmap. by exists x.
    + revert Hin. apply Hextra. by right.
Qed.

Lemma filter_unseen_fixed (seen : gset K) (l : list item) :
  NoDup (id <$> l) -> (forall x, x ∈ l -> id x ∉ seen) ->
  filter_unseen id seen l = l.
Proof.
  intros Hnd Hfresh.
  rewrite <- (left_id_L ∅ (∪) seen) at 1.
  rewrite (comm_L (∪)).
  rewrite (filter_unseen_NoDup_filter seen ∅) by done.
  induction l as [|a l IH]; [done|].
  rewrite filter_cons_True by (apply not_elem_of_empty).
  f_equal. apply IH.
  - rewrite fmap_cons in Hnd. by apply NoDup_cons in Hnd as [_ ?].
  - intros x Hx. apply Hfresh. by right.
Qed.

(** X13: what a heartbeat makes of a duplicate-free list: the batch without its
    repeats, then the stored items whose id the batch does not carry, in
    their order, cut at [cap]. *)
Theorem merge_replaces_by_id (cap : nat) (incoming : option (list item))
    (prev : list item) :
  NoDup (id <$> prev) ->
  let batch := default [] incoming in
  on_message id cap (mkEvent "heartbeat" incoming) prev
  = take cap (filter_unseen id ∅ batch
              ++ filter (fun x => id x ∉ ids_of id batch) prev).
Proof.
  intros Hnd batch.
  change (on_message id cap (mkEvent "heartbeat" incoming) prev)
    with (take cap (filter_unseen id ∅ (batch ++ prev))).
  rewrite filter_unseen_app. do 2 f_equal.
  rewrite (comm_L (∪)).
  apply filter_unseen_NoDup_filter; [done|].
  intros x _. apply not_elem_of_empty.
Qed.

(** X14: a batch delivered twice changes nothing the second time, and neither
    does a heartbeat without data after a heartbeat. *)
Theorem merge_is_idempotent (cap : nat) (incoming : option (list item))
    (prev : list item) :
  let once := on_message id cap (mkEvent "heartbeat" incoming) prev in
  on_message id cap (mkEvent "heartbeat" incoming) once = once /\
  on_message id cap (mkEvent "heartbeat" None) once = once.
Proof.
  intros once. set (batch := default [] incoming).
  set (A := filter_unseen id ∅ batch).
  set (B := filter_unseen id (ids_of id batch ∪ ∅) prev).
  assert (Honce : once = take cap A ++ take (cap - length A) B).
  { unfold once.
    change (on_message id cap (mkEvent "heartbeat" incoming) prev)
      with (take cap (filter_unseen id ∅ (batch ++ prev))).
    rewrite filter_unseen_app. apply take_app. }
  assert (HndB : NoDup (id <$> take (cap - length A) B)).
  { rewrite fmap_take.
    eapply sublist_NoDup; [apply (filter_unseen_NoDup id)|apply sublist_take]. }
  assert (HfreshB : forall x, x ∈ take (cap - length A) B ->
                      id x ∉ ids_of id batch ∪ ∅).
  { intros x Hx. apply (filter_unseen_fresh id _ prev).
    eapply elem_of_sublist; [done|apply sublist_take]. }
  assert (HseenA : forall x, x ∈ take cap A -> id x ∈ ids_of id batch ∪ ∅).
  { intros x Hx. apply elem_of_union. left. apply elem_of_ids_of.
    exists x. split; [|done].
    eapply elem_of_sublist; [|apply (filter_unseen_sublist id)].
    eapply elem_of_sublist; [done|apply sublist_take]. }
  split.
  - change (on_message id cap (mkEvent "heartbeat" incoming) once)
      with (take cap (filter_unseen id ∅ (batch ++ once))).
    rewrite filter_unseen_app. fold A. rewrite Honce at 1.
    rewrite filter_unseen_app.
    rewrite filter_unseen_all_seen by done. simpl.
    rewrite filter_unseen_fixed; [|done|].
    + rewrite Honce, take_app, take_take. do 2 f_equal. lia.
    + intros x Hx. specialize (HfreshB x Hx). specialize (HseenA).
      rewrite elem_of_union. intros [Hin|Hin]; [|done].
      apply elem_of_ids_of in Hin as (y & Hy & Heq).
      apply HfreshB. rewrite <- Heq. by apply HseenA.
  - change (on_message id cap (mkEvent "heartbeat" None) once)
      with (take cap (filter_unseen id ∅ ([] ++ once))).
    simpl. rewrite filter_unseen_fixed.
    + apply take_ge. rewrite Honce, length_app, !length_take. lia.
    + unfold once.
      change (on_message id cap (mkEvent "heartbeat" incoming) prev)
        with (take cap (filter_unseen id ∅ (batch ++ prev))).
      rewrite fmap_take.
      eapply sublist_NoDup; [apply (filter_unseen_NoDup id)|apply sublist_take].
    + intros x _. apply not_elem_of_empty.
Qed.

End MergeProperties.

(** ** The campaign page *)

Section RenderProperties.

Import Pipeline.

(** X15: the page shows a status that satisfies the invariant as a row of
    checks for the completed stages, then, while the pipeline runs, one
    spinner on the current stage, then idle stages; a pipeline that is
    completed or in error shows no spinner. *)
Theorem render_follows_progress (st : PipelineStatus) :
  invariant st ->
  let k := length (stages_completed st) in
  k <= 5 /\
  render st
  = replicate k Done
    ++ (if pipelineRunning st then Current :: replicate (4 - k) Idle
        else replicate (5 - k) Idle).
Proof.
  destruct st as [cur fin detail]. unfold invariant, next_stage; simpl.
  intros (_ & [rest Hrest] & Hcur).
  assert (Hfin : exists k, k <= 5 /\ fin = take k PIPELINE_STAGES).
  { exists (length fin). split.
    - apply (f_equal length) in Hrest. rewrite length_app in Hrest.
      simpl in Hrest. lia.
    - rewrite Hrest. by rewrite take_app_length. }
  destruct Hfin as (k & Hle & ->).
  destruct k as [|[|[|[|[|[|k]]]]]]; [..|lia];
    (split; [simpl; lia|]);
    destruct Hcur as [->|[->|Hnext]]; try reflexivity;
    simpl in Hnext;
    first [discriminate Hnext | injection Hnext as <-; reflexivity].
Qed.

Lemma render_follows_progress_witness :
  let st := mkStatus vision [intent; scouting] None in
  invariant st /\
  render st = [Done; Done; Current; Idle; Idle].
Proof.
  intros st.
  assert (Hinv : invariant st).
  { unfold invariant, st; simpl.
    split; [apply (bool_decide_unpack _); vm_compute; reflexivity|].
    split; [by exists [vision; strategy; engagement]|].
    right; right; reflexivity. }
  split; [exact Hinv|].
  destruct (render_follows_progress st Hinv) as [_ Hrender].
  etrans; [exact Hrender|reflexivity].
Defined.

End RenderProperties.

Lemma merge_replaces_by_id_witness :
  let prev := [("a", "a"); ("b", "old b"); ("d", "d")] in
  NoDup (fst <$> prev) /\
  Feed.on_message fst 3
    (Feed.mkEvent "heartbeat" (Some [("b", "new b"); ("c", "c"); ("b", "b")]))
    prev
  = [("b", "new b"); ("c", "c"); ("a", "a")].
Proof.
  intros prev.
  assert (Hnd : NoDup (fst <$> prev)).
  { apply (bool_decide_unpack _). vm_compute. reflexivity. }
  split; [exact Hnd|].
  etrans; [exact (merge_replaces_by_id fst 3
                    (Some [("b", "new b"); ("c", "c"); ("b", "b")]) prev Hnd)|].
  vm_compute. reflexivity.
Defined.
